(** * negroni: middleware chains, their construction and dispatch

    The repository carries two versions of package [negroni]:
    - the annotated one (variadic [New], [With], [build(handlers)], nodes that
      store [nextfn]), embedded in module [Current];
    - the earlier [negroni.go] ([build(i, handlers)], nodes that store a
      [next] pointer and test [Written] before calling their handler),
      embedded in module [Early].

    Handlers are code outside the package.  A handler is modelled by what it
    does when invoked: it works on the world (the request, the response sink
    and whatever else it can reach) and calls its continuation [next] zero or
    more times.  Dispatch is instrumented with a log of events so that "which
    handler ran, and in which order" can be stated. *)

From stdpp Require Import base list gmap strings.
From Stdlib Require Import ZArith Lia.
From Equations Require Import Equations.

(** ** Handlers, outcomes and the dispatch log *)

Section Exchange.
Variable World : Type.

(** How a call ends: it returns, or it panics. Either way it leaves a world. *)
Inductive Outcome : Type :=
| Returned (w : World)
| Panicked (w : World).

(** What one invocation of a handler does: [CallNext w k] is "work until the
    world is [w], call [next(rw, r)], then go on as [k] says for the outcome
    of that call" ([k] sees a panic too, as a handler may recover it). *)
Inductive Behaviour : Type :=
| Return (w : World)
| Panics (w : World)
| CallNext (w : World) (k : Outcome -> Behaviour).

(** [type HandlerFunc func(rw, r, next)]. *)
Definition HandlerFunc : Type := World -> Behaviour.

(** [type Handler interface { ServeHTTP(rw, r, next) }]: an interface value is
    nil ([None]) or holds an implementation. *)
Definition Handler : Type := option HandlerFunc.

(** [func (h HandlerFunc) ServeHTTP(rw, r, next) { h(rw, r, next) }] *)
Definition HandlerFunc_ServeHTTP (h : HandlerFunc) : World -> Behaviour := h.

(** Events of a dispatch. [d] is the position of the node along the chain,
    counted from the head (0). *)
Inductive Event : Type :=
| Serve (d : nat)                        (* the node's ServeHTTP is entered *)
| Handle (d : nat) (h : HandlerFunc)     (* the node calls its handler *)
| Yield (d : nat).                       (* that handler calls next *)

Definition depth (e : Event) : nat :=
  match e with Serve d | Handle d _ | Yield d => d end.

(** Runs a handler invocation at position [d]; [next] is the function value the
    node passed as continuation. *)
Fixpoint interp (d : nat) (next : World -> list Event * Outcome)
    (b : Behaviour) : list Event * Outcome :=
  match b with
  | Return w => ([], Returned w)
  | Panics w => ([], Panicked w)
  | CallNext w k =>
      let r1 := next w in
      let r2 := interp d next (k (snd r1)) in
      (Yield d :: fst r1 ++ fst r2, snd r2)
  end.

(** Calling a nil function value, or a method through a nil pointer or a nil
    interface, panics. *)
Definition nil_call : World -> list Event * Outcome := fun w => ([], Panicked w).

(** Observations on a log: how many times the handler at position [d] called
    its continuation, and which handlers were invoked, in order. *)
Definition is_yield (d : nat) (e : Event) : bool :=
  match e with Yield d' => Nat.eqb d d' | _ => false end.

Definition yields (d : nat) (l : list Event) : nat :=
  length (List.filter (is_yield d) l).

Definition handled (l : list Event) : list HandlerFunc :=
  omap (fun e => match e with Handle _ h => Some h | _ => None end) l.

(** Results of the package's own functions: a value, or a panic. *)
Inductive Result (A : Type) : Type :=
| Ok (a : A)
| Panic (msg : string).

End Exchange.

Arguments Returned {World} w.
Arguments Panicked {World} w.
Arguments Return {World} w.
Arguments Panics {World} w.
Arguments CallNext {World} w k.
Arguments HandlerFunc_ServeHTTP {World} h.
Arguments Serve {World} d.
Arguments Handle {World} d h.
Arguments Yield {World} d.
Arguments depth {World} e.
Arguments interp {World} d next b.
Arguments nil_call {World} w.
Arguments is_yield {World} d e.
Arguments yields {World} d l.
Arguments handled {World} l.
Arguments Ok {A} a.
Arguments Panic {A} msg.

(** How many times the node at position [d] was entered. *)
Definition is_serve {World : Type} (d : nat) (e : Event World) : bool :=
  match e with Serve d' => Nat.eqb d d' | _ => false end.

Definition serves {World : Type} (d : nat) (l : list (Event World)) : nat :=
  length (List.filter (is_serve d) l).

(** A plain handler, [http.Handler]'s [ServeHTTP(rw, r)] or an
    [http.HandlerFunc]: it has no continuation. *)
Definition PlainHandler (World : Type) : Type := World -> Outcome World.

(** [http.HandlerFunc(f)]: an [http.Handler] that is never nil and calls [f],
    which panics when [f] is the nil function. *)
Definition http_HandlerFunc {World : Type} (f : option (PlainHandler World))
    : option (PlainHandler World) :=
  Some (match f with Some g => g | None => fun w => Panicked w end).

(** Plain handlers run one after the other, each on the world the one before
    left, up to the first panic. *)
Fixpoint run_plain {World : Type} (ps : list (PlainHandler World)) (w : World)
    : Outcome World :=
  match ps with
  | [] => Returned w
  | p :: tl =>
      match p w with
      | Returned w1 => run_plain tl w1
      | Panicked w1 => Panicked w1
      end
  end.

(** The same, where before each handler, and at the end, the sink is asked
    whether output was written: the run stops there when it was, and panics
    when the sink cannot tell. *)
Fixpoint run_plain_guarded {World : Type} (Written : World -> option bool)
    (ps : list (PlainHandler World)) (w : World) : Outcome World :=
  match Written w with
  | None => Panicked w
  | Some true => Returned w
  | Some false =>
      match ps with
      | [] => Returned w
      | p :: tl =>
          match p w with
          | Returned w1 => run_plain_guarded Written tl w1
          | Panicked w1 => Panicked w1
          end
      end
  end.

(** ** Slices and their backing arrays

    A slice value is a window on a backing array; several slices can share
    one array, and [append] writes in place when the capacity allows. Arrays
    are allocated in order; an array is named by its index in the store. *)

Record slice : Type := Slice { base : nat; off : nat; len : nat; cap : nat }.

(** The nil slice. *)
Definition nil_slice : slice := Slice 0 0 0 0.

Section Slices.
Context {A : Type}.
Variable zero : A.
(** Capacity chosen by the runtime when [append] has to grow a slice of
    capacity [c] to hold [n] elements. *)
Variable growslice : nat -> nat -> nat.

Definition array_of (arrays : list (list A)) (s : slice) : list A :=
  default [] (arrays !! base s).

(** [s[0], ..., s[len(s)-1]] *)
Definition contents (arrays : list (list A)) (s : slice) : list A :=
  take (len s) (drop (off s) (array_of arrays s)).

(** [make([]T, n)] *)
Definition make (n : nat) (arrays : list (list A)) : slice * list (list A) :=
  (Slice (length arrays) 0 n n, arrays ++ [replicate n zero]).

(** [copy(dst, src)] *)
Definition copy (dst src : slice) (arrays : list (list A)) : list (list A) :=
  let n := min (len dst) (len src) in
  alter (list_inserts (off dst) (take n (contents arrays src))) (base dst) arrays.

(** [append(s, xs...)] *)
Definition append (s : slice) (xs : list A) (arrays : list (list A))
    : slice * list (list A) :=
  let n := len s + length xs in
  if decide (n ≤ cap s) then
    (Slice (base s) (off s) n (cap s),
     alter (list_inserts (off s + len s) xs) (base s) arrays)
  else
    let c := growslice (cap s) n in
    (Slice (length arrays) 0 n c,
     arrays ++ [contents arrays s ++ xs ++ replicate (c - n) zero]).

(** A slice lies within its backing array. *)
Definition slice_wf (arrays : list (list A)) (s : slice) : Prop :=
  len s ≤ cap s ∧ off s + cap s ≤ length (array_of arrays s).

End Slices.

(** [os.Getenv] on an environment. *)
Definition Getenv (env : gmap string string) (key : string) : string :=
  default EmptyString (env !! key).

(** ** The annotated version *)

Module Current.
Section Chain.
Context {World : Type}.

(** [type middleware struct { handler Handler; nextfn func(rw, r) }].
    [nextfn] is only ever nil (the zero value) or the method value
    [next.ServeHTTP], which holds a copy of the node [*next]; it is
    represented by that node. *)
#[warnings="-register-all"]
Inductive middleware : Type :=
| Middleware (handler : Handler World) (nextfn : option middleware).

Definition handler (m : middleware) : Handler World :=
  match m with Middleware h _ => h end.

Definition nextfn (m : middleware) : option middleware :=
  match m with Middleware _ n => n end.

(** [middleware{}] *)
Definition zero_middleware : middleware := Middleware None None.

(** [newMiddleware(handler, next)], [next] pointing to the node given. *)
Definition newMiddleware (h : Handler World) (next : middleware) : middleware :=
  Middleware h (Some next).

(** [func (m middleware) ServeHTTP(rw, r) { m.handler.ServeHTTP(rw, r, m.nextfn) }].
    The position [d] and the log are instrumentation; the outcome does not
    depend on them. *)
Fixpoint middleware_ServeHTTP (d : nat) (m : middleware) (w : World)
    : list (Event World) * Outcome World :=
  match m with
  | Middleware h nfn =>
      match h with
      | None => ([Serve d], Panicked w)
      | Some f =>
          let next :=
            match nfn with
            | Some m' => middleware_ServeHTTP (S d) m'
            | None => nil_call
            end in
          let r := interp d next (HandlerFunc_ServeHTTP f w) in
          (Serve d :: Handle d f :: fst r, snd r)
      end
  end.

(** [Wrap(handler)]: a [HandlerFunc], never nil, that runs the plain handler
    and then calls [next(rw, r)]; a panic of either goes up, and calling a nil
    [handler] panics. *)
Definition Wrap (handler : option (PlainHandler World)) : Handler World :=
  Some (fun w =>
    match handler with
    | None => Panics w
    | Some plain =>
        match plain w with
        | Returned w1 =>
            CallNext w1 (fun o =>
              match o with
              | Returned w2 => Return w2
              | Panicked w2 => Panics w2
              end)
        | Panicked w1 => Panics w1
        end
    end).

(** [WrapFunc(handlerFunc)]: the same for a function value. *)
Definition WrapFunc (handlerFunc : option (PlainHandler World)) : Handler World :=
  Wrap handlerFunc.

(** The function literal of [voidMiddleware]: [func(rw, r, next) {}]. *)
Definition voidHandler : HandlerFunc World := fun w => Return w.

(** [voidMiddleware()] *)
Definition voidMiddleware : middleware :=
  newMiddleware (Some voidHandler) zero_middleware.

(** [build(handlers)], on the contents of the slice it is given
    ([handlers[1:]] is the tail of the contents). *)
Fixpoint build (handlers : list (Handler World)) : middleware :=
  match handlers with
  | [] => voidMiddleware
  | h :: tl =>
      let next :=
        match tl with
        | _ :: _ => build tl
        | [] => voidMiddleware
        end in
      newMiddleware h next
  end.

(** The nodes of a chain, head first: a node is a [middleware] made by
    [newMiddleware], that is, with a bound [nextfn]. The zero value
    [middleware{}] that ends the links has neither handler nor [nextfn]. *)
Fixpoint nodes (m : middleware) : list (Handler World) :=
  match m with
  | Middleware h (Some m') => h :: nodes m'
  | Middleware _ None => []
  end.

End Chain.
Arguments middleware World : clear implicits.

Section Pipeline.
Context {World : Type}.
Variable growslice : nat -> nat -> nat.
(** [NewResponseWriter] lives in a file of the package that is not part of
    this development; it is a parameter. *)
Variable NewResponseWriter : World -> World.

(** [type Negroni struct { middleware middleware; handlers []Handler }] *)
Record Negroni : Type := {
  Negroni_middleware : middleware World;
  Negroni_handlers : slice;
}.

(** The memory the package works on: backing arrays of handler slices, and
    the [Negroni] objects that [*Negroni] pointers name. *)
Record Mem : Type := {
  arrays : list (list (Handler World));
  objects : list Negroni;
}.

(** [New(handlers...)]: [&Negroni{handlers: handlers, middleware: build(handlers)}] *)
Definition New (handlers : slice) (σ : Mem) : nat * Mem :=
  let n := {| Negroni_handlers := handlers;
              Negroni_middleware := build (contents (arrays σ) handlers) |} in
  (length (objects σ), {| arrays := arrays σ; objects := objects σ ++ [n] |}).

(** [n.With(handlers...)] *)
Definition With (n : nat) (handlers : slice) (σ : Mem) : Result (nat * Mem) :=
  match objects σ !! n with
  | None => Panic "invalid memory address or nil pointer dereference"
  | Some obj =>
      let r1 := @make (Handler World) None (len (Negroni_handlers obj)) (arrays σ) in
      let currentHandlers := fst r1 in
      let a2 := copy currentHandlers (Negroni_handlers obj) (snd r1) in
      let r3 := @append (Handler World) None growslice currentHandlers
                  (contents a2 handlers) a2 in
      Ok (New (fst r3) {| arrays := snd r3; objects := objects σ |})
  end.

(** [n.ServeHTTP(rw, r)]: [n.middleware.ServeHTTP(NewResponseWriter(rw), r)] *)
Definition Negroni_ServeHTTP (n : nat) (σ : Mem) (w : World)
    : list (Event World) * Outcome World :=
  match objects σ !! n with
  | None => ([], Panicked w)
  | Some obj => middleware_ServeHTTP 0 (Negroni_middleware obj) (NewResponseWriter w)
  end.

(** [n.Use(handler)] *)
Definition Use (n : nat) (h : Handler World) (σ : Mem) : Result Mem :=
  match h with
  | None => Panic "handler cannot be nil"
  | Some _ =>
      match objects σ !! n with
      | None => Panic "invalid memory address or nil pointer dereference"
      | Some obj =>
          let r := @append (Handler World) None growslice (Negroni_handlers obj) [h]
                     (arrays σ) in
          let obj' := {| Negroni_handlers := fst r;
                         Negroni_middleware := build (contents (snd r) (fst r)) |} in
          Ok {| arrays := snd r; objects := <[n := obj']> (objects σ) |}
      end
  end.

(** [n.UseFunc(handlerFunc)]: [n.Use(HandlerFunc(handlerFunc))] *)
Definition UseFunc (n : nat) (f : HandlerFunc World) (σ : Mem) : Result Mem :=
  Use n (Some f) σ.

(** [n.Handlers()] *)
Definition Handlers (n : nat) (σ : Mem) : Result slice :=
  match objects σ !! n with
  | None => Panic "invalid memory address or nil pointer dereference"
  | Some obj => Ok (Negroni_handlers obj)
  end.

(** Every pipeline's handler slice lies within its backing array. *)
Definition mem_wf (σ : Mem) : Prop :=
  ∀ n obj, objects σ !! n = Some obj → slice_wf (arrays σ) (Negroni_handlers obj).

(** [n.UseHandler(handler)]: [n.Use(Wrap(handler))] *)
Definition UseHandler (n : nat) (handler : option (PlainHandler World)) (σ : Mem)
    : Result Mem :=
  Use n (Wrap handler) σ.

(** [n.UseHandlerFunc(handlerFunc)]: [n.UseHandler(http.HandlerFunc(handlerFunc))] *)
Definition UseHandlerFunc (n : nat) (handlerFunc : option (PlainHandler World))
    (σ : Mem) : Result Mem :=
  UseHandler n (http_HandlerFunc handlerFunc) σ.

(** The slice a call [f(h1, ..., hk)] of a variadic function passes: nil when
    there is no argument, else a new array holding the arguments. *)
Definition variadic (hs : list (Handler World)) (arrs : list (list (Handler World)))
    : slice * list (list (Handler World)) :=
  match hs with
  | [] => (nil_slice, arrs)
  | _ :: _ => (Slice (length arrs) 0 (length hs) (length hs), arrs ++ [hs])
  end.

(** [New(h1, ..., hk)] *)
Definition New_args (hs : list (Handler World)) (σ : Mem) : nat * Mem :=
  let r := variadic hs (arrays σ) in
  New (fst r) {| arrays := snd r; objects := objects σ |}.

(** [n.With(h1, ..., hk)] *)
Definition With_args (n : nat) (hs : list (Handler World)) (σ : Mem)
    : Result (nat * Mem) :=
  let r := variadic hs (arrays σ) in
  With n (fst r) {| arrays := snd r; objects := objects σ |}.

(** [Classic()]: [New(NewRecovery(), NewLogger(), NewStatic(http.Dir("public")))].
    The three constructors live in files of the package that are not part of
    this development; what they return is a parameter. *)
Definition Classic (recovery logger static : Handler World) (σ : Mem) : nat * Mem :=
  New_args [recovery; logger; static] σ.

(** Every pipeline's chain is the one built from its current handler list. *)
Definition chains_consistent (σ : Mem) : Prop :=
  ∀ n obj, objects σ !! n = Some obj →
    Negroni_middleware obj = build (contents (arrays σ) (Negroni_handlers obj)).

(** No two pipelines hold slices with capacity on the same array. *)
Definition arrays_separate (σ : Mem) : Prop :=
  ∀ n m objn objm,
    n ≠ m → objects σ !! n = Some objn → objects σ !! m = Some objm →
    cap (Negroni_handlers objn) = 0 ∨ cap (Negroni_handlers objm) = 0
    ∨ base (Negroni_handlers objn) ≠ base (Negroni_handlers objm).

Definition pipelines_inv (σ : Mem) : Prop :=
  mem_wf σ ∧ chains_consistent σ ∧ arrays_separate σ.

(** The memories a program gets to that starts with none and makes pipelines
    with [New(h1, ..., hk)], [Use] and [With(h1, ..., hk)] only. *)
Inductive reachable : Mem -> Prop :=
| reach_empty : reachable {| arrays := []; objects := [] |}
| reach_New hs σ : reachable σ -> reachable (snd (New_args hs σ))
| reach_Use n h σ σ' : reachable σ -> Use n h σ = Ok σ' -> reachable σ'
| reach_With n hs σ d σ' :
    reachable σ -> With_args n hs σ = Ok (d, σ') -> reachable σ'.

End Pipeline.

(** [const DefaultAddress = ":8080"] *)
Definition DefaultAddress : string := ":8080".

(** [detectAddress(addr...)] *)
Definition detectAddress (env : gmap string string) (addr : list string) : string :=
  match addr with
  | a0 :: _ => a0
  | [] =>
      let port := Getenv env "PORT" in
      if decide (port ≠ EmptyString) then ":" +:+ port else DefaultAddress
  end.

(** [n.Run(addr...)], as the address it hands to [http.ListenAndServe]. *)
Definition Run (env : gmap string string) (addr : list string) : string :=
  let finalAddr := detectAddress env addr in
  finalAddr.

End Current.

(** ** The earlier version, [negroni.go] *)

Module Early.
Section Chain.
Context {World : Type}.
(** [ResponseWriter], its [Written] method and [NewResponseWriter] live in a
    file of the package that is not part of this development; they are
    parameters. [Written w] is [None] when the [rw] of world [w] is not a
    [ResponseWriter], so that the assertion [rw.(ResponseWriter)] panics. *)
Variable Written : World -> option bool.
Variable NewResponseWriter : World -> World.

(** [type middleware struct { handler Handler; next *middleware }]; no code
    writes to a node once it is made, so a pointer is nil or the node it
    points to. *)
#[warnings="-register-all"]
Inductive middleware : Type :=
| Middleware (handler : Handler World) (next : option middleware).

(** [func (h middleware) ServeHTTP(rw, r)] *)
Fixpoint middleware_ServeHTTP (d : nat) (h : middleware) (w : World)
    : list (Event World) * Outcome World :=
  match h with
  | Middleware hd nxt =>
      match Written w with
      | None => ([Serve d], Panicked w)
      | Some true => ([Serve d], Returned w)
      | Some false =>
          match hd, nxt with
          | Some f, Some m' =>
              let r := interp d (middleware_ServeHTTP (S d) m')
                         (HandlerFunc_ServeHTTP f w) in
              (Serve d :: Handle d f :: fst r, snd r)
          | _, _ => ([Serve d], Panicked w)
          end
      end
  end.

(** [func voidHandler(rw, r, next) { /* do nothing */ }] *)
Definition voidHandler : HandlerFunc World := fun w => Return w.

(** [middleware{}] *)
Definition zero_middleware : middleware := Middleware None None.

(** [middleware{HandlerFunc(voidHandler), &middleware{}}] *)
Definition void_middleware : middleware :=
  Middleware (Some voidHandler) (Some zero_middleware).

(** [build(i, handlers)]; [handlers[i]] panics unless [0 <= i < len(handlers)]. *)
Equations? build (i : Z) (handlers : list (Handler World)) : Result middleware
  by wf (Z.to_nat (Z.of_nat (length handlers) - i)) lt :=
build i handlers with decide (0 ≤ i)%Z := {
  | right _ => Panic "index out of range";
  | left _ with handlers !! Z.to_nat i := {
    | None => Panic "index out of range";
    | Some h with decide (i < Z.of_nat (length handlers) - 1)%Z := {
      | left _ =>
          match build (i + 1) handlers with
          | Ok next => Ok (Middleware h (Some next))
          | Panic msg => Panic msg
          end;
      | right _ => Ok (Middleware h (Some void_middleware))
      }
    }
  }.
Proof. lia. Qed.

(** The nodes of a chain, head first; the zero value [middleware{}] that ends
    the links, with neither handler nor [next], is not one. *)
Fixpoint nodes (m : middleware) : list (Handler World) :=
  match m with
  | Middleware h (Some m') => h :: nodes m'
  | Middleware _ None => []
  end.

(** The chain that links the handlers of a list, in order, to the sentinel: what
    [build] is to return. *)
Definition chain_of (hs : list (Handler World)) : middleware :=
  foldr (fun h m => Middleware h (Some m)) void_middleware hs.

(** [type Negroni struct { middleware middleware; handlers []Handler }].
    Nothing in this version hands the slice out or shares it, so it is
    held by its contents. *)
Record Negroni : Type := {
  Negroni_middleware : middleware;
  Negroni_handlers : list (Handler World);
}.

(** [New()] *)
Definition New : Negroni :=
  {| Negroni_middleware := void_middleware; Negroni_handlers := [] |}.

(** [n.ServeHTTP(rw, r)] *)
Definition Negroni_ServeHTTP (n : Negroni) (w : World)
    : list (Event World) * Outcome World :=
  middleware_ServeHTTP 0 (Negroni_middleware n) (NewResponseWriter w).

(** [n.Use(handler)] *)
Definition Use (n : Negroni) (h : Handler World) : Result Negroni :=
  let handlers := Negroni_handlers n ++ [h] in
  match build 0 handlers with
  | Ok m => Ok {| Negroni_middleware := m; Negroni_handlers := handlers |}
  | Panic msg => Panic msg
  end.

(** [Wrap(handler)] *)
Definition Wrap (handler : option (PlainHandler World)) : Handler World :=
  Some (fun w =>
    match handler with
    | None => Panics w
    | Some plain =>
        match plain w with
        | Returned w1 =>
            CallNext w1 (fun o =>
              match o with
              | Returned w2 => Return w2
              | Panicked w2 => Panics w2
              end)
        | Panicked w1 => Panics w1
        end
    end).

(** [n.UseHandler(handler)]: [n.Use(Wrap(handler))] *)
Definition UseHandler (n : Negroni) (handler : option (PlainHandler World))
    : Result Negroni :=
  Use n (Wrap handler).

(** [Use] for each handler of a list, in order, on the pipeline the one before
    returned. *)
Fixpoint use_each (hs : list (Handler World)) (n : Negroni) : Result Negroni :=
  match hs with
  | [] => Ok n
  | h :: tl =>
      match Use n h with
      | Ok n' => use_each tl n'
      | Panic msg => Panic msg
      end
  end.

(** [Classic()]: [n := New(); n.Use(NewRecovery()); n.Use(NewLogger());
    n.Use(NewStatic("public")); return n]. What the three constructors return
    is a parameter. *)
Definition Classic (recovery logger static : Handler World) : Result Negroni :=
  match Use New recovery with
  | Ok n1 =>
      match Use n1 logger with
      | Ok n2 => Use n2 static
      | Panic msg => Panic msg
      end
  | Panic msg => Panic msg
  end.

End Chain.
Arguments middleware World : clear implicits.
Arguments Negroni World : clear implicits.

(** [n.Run()], as the address it hands to [http.ListenAndServe]. *)
Definition Run (env : gmap string string) : string :=
  let port := Getenv env "PORT" in
  let port := if decide (port = EmptyString) then "3000" else port in
  let host := Getenv env "HOST" in
  host +:+ ":" +:+ port.

End Early.

(** ** A concrete world and a few handlers

    The world is the response sink alone: what has been written to it, and,
    once wrapped, whether the wrapper has seen a write. *)

Module Sample.

Inductive Sink : Type :=
| Raw (out : list nat)
| Wrapped (out : list nat) (written : bool).

Definition write (x : nat) (s : Sink) : Sink :=
  match s with
  | Raw out => Raw (out ++ [x])
  | Wrapped out _ => Wrapped (out ++ [x]) true
  end.

(** Modelled from the spec: the response-sink wrapper's flag ("has any
    byte/status been written yet"); the wrapper is not in the files embedded
    here. A sink that is not wrapped has no flag. *)
Definition Written (s : Sink) : option bool :=
  match s with
  | Raw _ => None
  | Wrapped _ b => Some b
  end.

(** Modelled from the spec: dispatch "wraps the incoming response surface if
    not already wrapped"; the wrapper is not in the files embedded here. *)
Definition NewResponseWriter (s : Sink) : Sink :=
  match s with
  | Raw out => Wrapped out false
  | Wrapped _ _ => s
  end.

Definition resume (o : Outcome Sink) : Behaviour Sink :=
  match o with
  | Returned s => Return s
  | Panicked s => Panics s
  end.

(** Writes [x], then calls [next]. *)
Definition pass (x : nat) : HandlerFunc Sink :=
  fun s => CallNext (write x s) resume.

(** Writes [x] and returns without calling [next]. *)
Definition stop (x : nat) : HandlerFunc Sink :=
  fun s => Return (write x s).

(** The runtime's growth policy is taken to be doubling. *)
Definition double (c n : nat) : nat := Nat.max n (2 * c).

Definition two : list (Handler Sink) := [Some (pass 1); Some (pass 2)].

Definition three : list (Handler Sink) :=
  [Some (pass 1); Some (stop 2); Some (pass 3)].

(** A memory with one array, holding [two], and no pipeline yet. *)
Definition mem1 : @Current.Mem Sink :=
  {| Current.arrays := [two]; Current.objects := [] |}.

(** The whole of that array, and its second element alone. *)
Definition whole : slice := Slice 0 0 2 2.
Definition second : slice := Slice 0 1 1 1.

(** [mem1] after [New(two...)]: pipeline 0 holds the slice [whole]. *)
Definition mem2 : @Current.Mem Sink := snd (Current.New whole mem1).

Definition pipeline0 : @Current.Negroni Sink :=
  {| Current.Negroni_middleware := Current.build two;
     Current.Negroni_handlers := whole |}.

(** Two pipelines made over one caller array of capacity 2: pipeline 0 from
    its first element, pipeline 1 from both. *)
Definition first : slice := Slice 0 0 1 2.
Definition shared : @Current.Mem Sink :=
  snd (Current.New whole (snd (Current.New first mem1))).


(** The memory before anything is made, one pipeline made with
    [New(two...)] from it, and a second one made with [New(three...)]. *)
Definition empty : @Current.Mem Sink :=
  {| Current.arrays := []; Current.objects := [] |}.
Definition mem3 : @Current.Mem Sink := snd (Current.New_args two empty).
Definition mem4 : @Current.Mem Sink := snd (Current.New_args three mem3).

(** Plain handlers: one that writes [x], one that panics. *)
Definition plain_write (x : nat) : PlainHandler Sink := fun s => Returned (write x s).
Definition plain_panic : PlainHandler Sink := fun s => Panicked s.

(** A sink that never shows output written. *)
Definition never_written (s : Sink) : option bool := Some false.

(** An environment that sets PORT. *)
Definition env_port : gmap string string := {[ "PORT" := "3000" ]}.

End Sample.

(** Appending the handlers of a list one at a time. *)
Fixpoint use_each {World : Type} (growslice : nat -> nat -> nat) (n : nat)
    (hs : list (Handler World)) (σ : Current.Mem) : Result Current.Mem :=
  match hs with
  | [] => Ok σ
  | h :: tl =>
      match Current.Use growslice n h σ with
      | Ok σ' => use_each growslice n tl σ'
      | Panic msg => Panic msg
      end
  end.

(** * Properties *)

(** ** Logs *)

Section LogFacts.
Context {World : Type}.
Implicit Types (w : World) (d : nat) (e : Event World).
Implicit Types (l : list (Event World)) (b : Behaviour World).
Implicit Types (next : World -> list (Event World) * Outcome World).

Lemma yields_cons d e l :
  yields d (e :: l) = (if is_yield d e then 1 else 0) + yields d l.
Proof. unfold yields. simpl. by destruct (is_yield d e). Qed.

Lemma yields_app d l1 l2 : yields d (l1 ++ l2) = yields d l1 + yields d l2.
Proof. unfold yields. by rewrite List.filter_app, length_app. Qed.

Lemma is_yield_depth d e : is_yield d e = true -> depth e = d.
Proof.
  destruct e as [|? ?|d']; simpl; try done.
  by intros ->%Nat.eqb_eq.
Qed.

Lemma is_yield_self d : is_yield d (@Yield World d) = true.
Proof. simpl. apply Nat.eqb_refl. Qed.

Lemma yields_other d l :
  Forall (fun e => depth e ≠ d) l -> yields d l = 0.
Proof.
  induction 1 as [|e l He _ IH]; [done|].
  rewrite yields_cons, IH.
  destruct (is_yield d e) eqn:E; [|done].
  by apply is_yield_depth in E.
Qed.

(** A property of the events of every call of [next], and of [Yield d],
    holds of the whole invocation. *)
Lemma interp_Forall (P : Event World -> Prop) d next b :
  P (Yield d) ->
  (∀ w, Forall P (fst (next w))) ->
  Forall P (fst (interp d next b)).
Proof.
  intros Hy Hnext. induction b as [w|w|w k IH]; simpl; try by constructor.
  constructor; [done|]. apply Forall_app. split; [apply Hnext|apply IH].
Qed.

(** When the calls of [next] log nothing at position [d], the number of
    [Yield d] tells how the invocation went: none means the handler did not
    call [next], one means it called [next] once and the log is that call's. *)
Lemma interp_yields d next b :
  (∀ w, Forall (fun e => depth e ≠ d) (fst (next w))) ->
  (yields d (fst (interp d next b)) = 0 -> fst (interp d next b) = []) ∧
  (yields d (fst (interp d next b)) = 1 ->
     ∃ w, fst (interp d next b) = Yield d :: fst (next w)).
Proof.
  intros Hnext. induction b as [w|w|w k IH]; simpl.
  - split; [done|]. unfold yields. simpl. lia.
  - split; [done|]. unfold yields. simpl. lia.
  - rewrite yields_cons, is_yield_self, yields_app, (yields_other _ _ (Hnext w)).
    split; [lia|]. intros Hone.
    destruct (IH (snd (next w))) as [Hnil _].
    rewrite Hnil by lia. rewrite app_nil_r. by exists w.
Qed.

Lemma yields_serve d d' l : yields d (@Serve World d' :: l) = yields d l.
Proof. done. Qed.

Lemma yields_handle d d' (f : HandlerFunc World) l :
  yields d (Handle d' f :: l) = yields d l.
Proof. done. Qed.

Lemma yields_yield_eq d l : yields d (@Yield World d :: l) = S (yields d l).
Proof. by rewrite yields_cons, is_yield_self. Qed.

Lemma yields_yield_ne d d' l :
  d ≠ d' -> yields d (@Yield World d' :: l) = yields d l.
Proof.
  intros Hne. rewrite yields_cons. simpl.
  by destruct (Nat.eqb_spec d d').
Qed.

Lemma handled_serve d l : handled (@Serve World d :: l) = handled l.
Proof. done. Qed.

Lemma handled_yield d l : handled (@Yield World d :: l) = handled l.
Proof. done. Qed.

Lemma handled_cons_handle d (f : HandlerFunc World) l :
  handled (Handle d f :: l) = f :: handled l.
Proof. done. Qed.

End LogFacts.

(** ** Chains of the annotated version *)

Section CurrentChain.
Context {World : Type}.
Implicit Types (hs : list (Handler World)) (w : World) (d : nat).
Implicit Types (l : list (Event World)).

Lemma build_cons (h : Handler World) hs :
  Current.build (h :: hs) = Current.newMiddleware h (Current.build hs).
Proof. by destruct hs. Qed.

Lemma build_foldr hs :
  Current.build hs = foldr Current.newMiddleware Current.voidMiddleware hs.
Proof. induction hs as [|h hs IH]; [done|]. by rewrite build_cons, IH. Qed.

Lemma nodes_build hs :
  Current.nodes (Current.build hs) = hs ++ [Some Current.voidHandler].
Proof.
  induction hs as [|h hs IH]; [done|].
  rewrite build_cons. simpl. by rewrite IH.
Qed.

Lemma serve_void d w :
  Current.middleware_ServeHTTP d Current.voidMiddleware w
  = ([Serve d; Handle d Current.voidHandler], Returned w).
Proof. done. Qed.

Lemma serve_zero d w :
  Current.middleware_ServeHTTP d Current.zero_middleware w
  = ([Serve d], Panicked w).
Proof. done. Qed.

Lemma serve_cons_nil d hs w :
  Current.middleware_ServeHTTP d (Current.build (None :: hs)) w
  = ([Serve d], Panicked w).
Proof. by rewrite build_cons. Qed.

Lemma serve_cons_some d (f : HandlerFunc World) hs w :
  Current.middleware_ServeHTTP d (Current.build (Some f :: hs)) w
  = (Serve d :: Handle d f ::
       fst (interp d (Current.middleware_ServeHTTP (S d) (Current.build hs)) (f w)),
     snd (interp d (Current.middleware_ServeHTTP (S d) (Current.build hs)) (f w))).
Proof. by rewrite build_cons. Qed.

(** A node of this version calls its handler whatever the sink shows: the
    head handler of a chain is always invoked. *)
Lemma current_head_always_invoked (f : HandlerFunc World) hs w :
  ∃ l, fst (Current.middleware_ServeHTTP 0 (Current.build (Some f :: hs)) w)
       = Serve 0 :: Handle 0 f :: l.
Proof. rewrite serve_cons_some. by eexists. Qed.

(** A plain handler that returns, wrapped by [Wrap], calls [next] once. *)
Lemma Wrap_yields_once (plain : World -> Outcome World) w w1 d next :
  plain w = Returned w1 ->
  ∃ f, Current.Wrap (Some plain) = Some f
       ∧ fst (interp d next (f w)) = Yield d :: fst (next w1).
Proof.
  intros Hp. eexists. split; [reflexivity|]. simpl. rewrite Hp. simpl.
  destruct (snd (next w1)); simpl; by rewrite app_nil_r.
Qed.

(** Every event of serving [build hs] from position [d] lies between [d] and
    the sentinel's position [d + length hs]. *)
Lemma serve_build_depth hs : ∀ d w,
  Forall (fun e => d ≤ depth e ≤ d + length hs)
    (fst (Current.middleware_ServeHTTP d (Current.build hs) w)).
Proof.
  induction hs as [|[f|] hs IH]; intros d w.
  - rewrite serve_void. simpl. repeat constructor; simpl; lia.
  - rewrite serve_cons_some. simpl.
    constructor; [simpl; lia|]. constructor; [simpl; lia|].
    apply interp_Forall; [simpl; lia|].
    intros w'. eapply Forall_impl; [apply IH|]. simpl. intros; lia.
  - rewrite serve_cons_nil. simpl. repeat constructor; simpl; lia.
Qed.

Lemma serve_build_deeper hs d w :
  Forall (fun e => depth e ≠ d)
    (fst (Current.middleware_ServeHTTP (S d) (Current.build hs) w)).
Proof.
  eapply Forall_impl; [apply serve_build_depth|]. simpl. intros; lia.
Qed.

(** Visiting order, from any position. *)
Lemma serve_build_order hs : ∀ d w,
  (∀ i, i < length hs ->
     yields (d + i) (fst (Current.middleware_ServeHTTP d (Current.build hs) w)) = 1) ->
  Some <$> handled (fst (Current.middleware_ServeHTTP d (Current.build hs) w))
  = hs ++ [Some Current.voidHandler].
Proof.
  induction hs as [|[f|] hs IH]; intros d w Hy.
  - done.
  - rewrite serve_cons_some in *. simpl fst in *.
    set (next := Current.middleware_ServeHTTP (S d) (Current.build hs)) in *.
    assert (Hy0 := Hy 0 ltac:(simpl; lia)).
    rewrite Nat.add_0_r, yields_serve, yields_handle in Hy0.
    destruct (interp_yields d next (f w)) as [_ Hone].
    { intros w'. apply serve_build_deeper. }
    destruct (Hone Hy0) as [w1 Hlog].
    rewrite Hlog in *.
    rewrite handled_serve, handled_cons_handle, handled_yield, fmap_cons.
    cbn [app]. f_equal. apply IH.
    intros i Hi. specialize (Hy (S i) ltac:(simpl; lia)).
    rewrite yields_serve, yields_handle, yields_yield_ne in Hy by lia.
    by replace (S d + i) with (d + S i) by lia.
  - specialize (Hy 0 ltac:(simpl; lia)).
    rewrite serve_cons_nil in Hy. by vm_compute in Hy.
Qed.

(** Short circuit, from any position. *)
Lemma serve_build_short hs : ∀ k d w,
  k < length hs ->
  (∀ i, i < k ->
     yields (d + i) (fst (Current.middleware_ServeHTTP d (Current.build hs) w)) = 1) ->
  yields (d + k) (fst (Current.middleware_ServeHTTP d (Current.build hs) w)) = 0 ->
  Forall (fun e => depth e ≤ d + k)
    (fst (Current.middleware_ServeHTTP d (Current.build hs) w)).
Proof.
  induction hs as [|[f|] hs IH]; intros k d w Hk Hy Hz.
  - simpl in Hk. lia.
  - rewrite serve_cons_some in *. simpl fst in *.
    set (next := Current.middleware_ServeHTTP (S d) (Current.build hs)) in *.
    constructor; [simpl; lia|]. constructor; [simpl; lia|].
    destruct (interp_yields d next (f w)) as [Hnone Hone].
    { intros w'. apply serve_build_deeper. }
    destruct k as [|k].
    + rewrite Nat.add_0_r, yields_serve, yields_handle in Hz.
      rewrite Hnone by done. constructor.
    + assert (Hy0 := Hy 0 ltac:(lia)).
      rewrite Nat.add_0_r, yields_serve, yields_handle in Hy0.
      destruct (Hone Hy0) as [w1 Hlog]. rewrite Hlog in *.
      constructor; [simpl; lia|].
      replace (d + S k) with (S d + k) in * by lia.
      apply IH; [simpl in Hk; lia| |].
      * intros i Hi. specialize (Hy (S i) ltac:(lia)).
        rewrite yields_serve, yields_handle, yields_yield_ne in Hy by lia.
        by replace (S d + i) with (d + S i) by lia.
      * by rewrite yields_serve, yields_handle, yields_yield_ne in Hz by lia.
  - rewrite serve_cons_nil. simpl. repeat constructor; simpl; lia.
Qed.

End CurrentChain.

(** ** Slices *)

Section SliceFacts.
Context {A : Type}.
Variable zero : A.
Variable growslice : nat -> nat -> nat.
Hypothesis growslice_ge : ∀ c n, n ≤ growslice c n.
Implicit Types (arrays : list (list A)) (s t : slice) (xs : list A).

Lemma slice_wf_in arrays s :
  slice_wf arrays s -> base s < length arrays ∨ len s = 0.
Proof.
  intros [Hl Hc]. unfold array_of in Hc.
  destruct (arrays !! base s) as [arr|] eqn:E.
  - left. by eapply lookup_lt_Some.
  - right. simpl in Hc. lia.
Qed.

Lemma contents_length arrays s :
  slice_wf arrays s -> length (contents arrays s) = len s.
Proof.
  intros [Hl Hc]. unfold contents.
  rewrite length_take, length_drop. lia.
Qed.

Lemma contents_empty arrays s : len s = 0 -> contents arrays s = [].
Proof. intros E. unfold contents. by rewrite E. Qed.

(** Allocation leaves the slices that were there as they are. *)
Lemma contents_alloc arrays (extra : list (list A)) s :
  base s < length arrays ∨ len s = 0 ->
  contents (arrays ++ extra) s = contents arrays s.
Proof.
  intros [Hb|E]; [|by rewrite !contents_empty].
  unfold contents, array_of. by rewrite lookup_app_l.
Qed.

Lemma slice_wf_alloc arrays (extra : list (list A)) s :
  slice_wf arrays s -> slice_wf (arrays ++ extra) s.
Proof.
  intros Hwf. destruct (slice_wf_in _ _ Hwf) as [Hb|E].
  - destruct Hwf as [Hl Hc]. split; [done|].
    unfold array_of in *. by rewrite lookup_app_l.
  - destruct Hwf as [Hl Hc]. split; [done|].
    unfold array_of in *.
    destruct (arrays !! base s) as [arr|] eqn:E1.
    + by rewrite (lookup_app_l_Some _ _ _ _ E1).
    + simpl in Hc. lia.
Qed.

(** Writing [xs] into an array from index [p] on leaves a window that ends at
    or before [p], or begins at or after [p + length xs], as it is. *)
Lemma window_inserts (arr : list A) p xs o n :
  o + n ≤ p ∨ p + length xs ≤ o ->
  take n (drop o (list_inserts p xs arr)) = take n (drop o arr).
Proof.
  intros Hdisj. apply list_eq. intros i.
  destruct (decide (i < n)) as [Hi|Hi].
  - rewrite !lookup_take_lt, !lookup_drop by done.
    destruct Hdisj; [apply list_lookup_inserts_lt|apply list_lookup_inserts_ge]; lia.
  - rewrite !lookup_take_ge by lia. done.
Qed.

Lemma slice_wf_alter arrays (f : list A -> list A) b s :
  (∀ arr, length (f arr) = length arr) ->
  slice_wf arrays s -> slice_wf (alter f b arrays) s.
Proof.
  intros Hf [Hl Hc]. split; [done|]. unfold array_of in *.
  destruct (decide (b = base s)) as [->|Hne].
  - rewrite list_lookup_alter_eq.
    destruct (arrays !! base s); simpl in *; [by rewrite Hf|done].
  - by rewrite list_lookup_alter_ne.
Qed.

(** [append(s, xs...)] leaves a slice as it is when the slice is empty, or is
    on another array, or ends at or before the end of [s]. *)
Lemma append_frame arrays s xs t :
  len t = 0 ∨ (base t < length arrays
               ∧ (base t ≠ base s ∨ off t + len t ≤ off s + len s)) ->
  contents (snd (append zero growslice s xs arrays)) t = contents arrays t.
Proof.
  intros [E|[Hin Hdisj]]; [by rewrite !contents_empty|].
  unfold append. case_decide; simpl.
  - unfold contents, array_of.
    destruct (decide (base s = base t)) as [Heq|Hne].
    + rewrite Heq, list_lookup_alter_eq.
      destruct (arrays !! base t) as [arr|]; simpl; [|done].
      apply window_inserts. destruct Hdisj; [congruence|lia].
    + by rewrite list_lookup_alter_ne.
  - apply contents_alloc. by left.
Qed.

Lemma append_contents arrays s xs :
  slice_wf arrays s ->
  contents (snd (append zero growslice s xs arrays))
           (fst (append zero growslice s xs arrays))
  = contents arrays s ++ xs.
Proof.
  intros Hwf. pose proof (contents_length _ _ Hwf) as Hlen.
  destruct Hwf as [Hl Hc]. unfold append. case_decide as Hfit; simpl.
  - unfold contents, array_of in *. simpl.
    rewrite list_lookup_alter_eq.
    destruct (arrays !! base s) as [arr|]; simpl in *.
    + apply list_eq. intros i.
      destruct (decide (i < len s)) as [Hi|Hi].
      * rewrite lookup_take_lt, lookup_drop by lia.
        rewrite list_lookup_inserts_lt by lia.
        rewrite lookup_app_l by (rewrite length_take, length_drop; lia).
        by rewrite lookup_take_lt, lookup_drop by lia.
      * rewrite lookup_app_r by (rewrite length_take, length_drop; lia).
        rewrite length_take, length_drop.
        replace (len s `min` (length arr - off s)) with (len s) by lia.
        destruct (decide (i < len s + length xs)) as [Hi2|Hi2].
        -- rewrite lookup_take_lt, lookup_drop by lia.
           rewrite list_lookup_inserts by lia. f_equal. lia.
        -- rewrite lookup_take_ge by lia. symmetry.
           apply lookup_ge_None. lia.
    + assert (len s = 0 ∧ length xs = 0) as [E1 E2] by lia.
      destruct xs; [|done]. by rewrite E1.
  - unfold contents at 1. unfold array_of. simpl.
    rewrite lookup_app_r, Nat.sub_diag by done. simpl.
    rewrite drop_0, app_assoc, take_app_length'; [done|].
    rewrite length_app. lia.
Qed.

Lemma append_wf arrays s xs :
  slice_wf arrays s ->
  slice_wf (snd (append zero growslice s xs arrays))
           (fst (append zero growslice s xs arrays)).
Proof.
  intros Hwf. pose proof (contents_length _ _ Hwf) as Hlen.
  destruct Hwf as [Hl Hc]. unfold append. case_decide as Hfit; simpl.
  - split; simpl; [done|]. unfold array_of in *. simpl.
    rewrite list_lookup_alter_eq.
    destruct (arrays !! base s) as [arr|]; simpl in *; [|done].
    by rewrite length_inserts.
  - pose proof (growslice_ge (cap s) (len s + length xs)).
    split; simpl; [done|]. unfold array_of. simpl.
    rewrite lookup_app_r, Nat.sub_diag by done. simpl.
    rewrite !length_app, length_replicate. lia.
Qed.

Lemma append_wf_frame arrays s xs t :
  slice_wf arrays t -> slice_wf (snd (append zero growslice s xs arrays)) t.
Proof.
  intros Hwf. unfold append. case_decide; simpl.
  - apply slice_wf_alter; [|done]. intros arr. apply length_inserts.
  - by apply slice_wf_alloc.
Qed.

Lemma append_base arrays s xs :
  base (fst (append zero growslice s xs arrays)) = base s
  ∨ base (fst (append zero growslice s xs arrays)) = length arrays.
Proof. unfold append. case_decide; simpl; auto. Qed.

Lemma append_length arrays s xs :
  length arrays ≤ length (snd (append zero growslice s xs arrays)).
Proof.
  unfold append. case_decide; simpl.
  - by rewrite length_alter.
  - rewrite length_app. lia.
Qed.

(** [make] followed by [copy] from a slice of the same length gives a new
    array holding that slice's contents. *)
Lemma make_copy arrays s :
  slice_wf arrays s ->
  copy (fst (make zero (len s) arrays)) s (snd (make zero (len s) arrays))
  = arrays ++ [contents arrays s].
Proof.
  intros Hwf. pose proof (contents_length _ _ Hwf) as Hlen.
  unfold make, copy. simpl.
  rewrite contents_alloc by (by apply slice_wf_in).
  rewrite Nat.min_id, take_ge by lia.
  replace (length arrays) with (length arrays + 0) at 1 by lia.
  rewrite alter_app_r. simpl. do 2 f_equal.
  rewrite <- (app_nil_r (replicate (len s) zero)).
  rewrite list_inserts_0_r by (by rewrite length_replicate).
  by rewrite app_nil_r.
Qed.

Lemma make_slice_wf arrays s :
  slice_wf (arrays ++ [contents arrays s]) (Slice (length arrays) 0 (len s) (len s))
  ∨ ¬ slice_wf arrays s.
Proof.
  destruct (decide (length (contents arrays s) = len s)) as [E|NE].
  - left. split; simpl; [done|]. unfold array_of. simpl.
    rewrite lookup_app_r, Nat.sub_diag by done. simpl. lia.
  - right. intros Hwf. by apply NE, contents_length.
Qed.

End SliceFacts.

(** ** Pipelines of the annotated version *)

Section CurrentPipeline.
Context {World : Type}.
Variable growslice : nat -> nat -> nat.
Hypothesis growslice_ge : ∀ c n, n ≤ growslice c n.
Variable NewResponseWriter : World -> World.
Implicit Types (σ : @Current.Mem World) (obj : @Current.Negroni World).
Implicit Types (h : Handler World) (f : HandlerFunc World) (s t : slice).

(** What [Use] does with a handler that is not nil, on a pipeline that
    exists. *)
Lemma Use_spec σ n obj f :
  Current.mem_wf σ ->
  Current.objects σ !! n = Some obj ->
  ∃ σ' obj',
    Current.Use growslice n (Some f) σ = Ok σ'
    ∧ Current.objects σ' = <[n := obj']> (Current.objects σ)
    ∧ contents (Current.arrays σ') (Current.Negroni_handlers obj')
      = contents (Current.arrays σ) (Current.Negroni_handlers obj) ++ [Some f]
    ∧ Current.Negroni_middleware obj'
      = Current.build (contents (Current.arrays σ) (Current.Negroni_handlers obj) ++ [Some f])
    ∧ Current.mem_wf σ'
    ∧ ∀ t, len t = 0 ∨ (base t < length (Current.arrays σ)
                        ∧ (base t ≠ base (Current.Negroni_handlers obj)
                           ∨ off t + len t
                             ≤ off (Current.Negroni_handlers obj)
                               + len (Current.Negroni_handlers obj))) ->
           contents (Current.arrays σ') t = contents (Current.arrays σ) t.
Proof.
  intros Hwf Hn. pose proof (Hwf n obj Hn) as Hs.
  unfold Current.Use. rewrite Hn.
  eexists _, _. split; [reflexivity|]. simpl.
  split; [reflexivity|]. simpl.
  split; [by apply append_contents|].
  split; [by rewrite (append_contents (None : Handler World) growslice)|]. split.
  - intros m objm Hm. simpl in *.
    destruct (decide (m = n)) as [->|Hne].
    + rewrite list_lookup_insert_eq in Hm by (by eapply lookup_lt_Some).
      injection Hm as <-. simpl. by apply append_wf.
    + rewrite list_lookup_insert_ne in Hm by done.
      apply append_wf_frame. by eapply Hwf.
  - intros t Ht. by apply append_frame.
Qed.

Lemma New_spec σ s :
  Current.mem_wf σ -> slice_wf (Current.arrays σ) s ->
  fst (Current.New s σ) = length (Current.objects σ)
  ∧ Current.arrays (snd (Current.New s σ)) = Current.arrays σ
  ∧ Current.objects (snd (Current.New s σ))
    = Current.objects σ ++
        [{| Current.Negroni_middleware := Current.build (contents (Current.arrays σ) s);
            Current.Negroni_handlers := s |}]
  ∧ Current.mem_wf (snd (Current.New s σ)).
Proof.
  intros Hwf Hs. do 3 (split; [done|]).
  intros m objm Hm. simpl in *.
  apply lookup_app_Some in Hm as [Hm|[_ Hm]]; [by eapply Hwf|].
  apply list_lookup_singleton_Some in Hm as [_ <-]. done.
Qed.

(** What [With] does on a pipeline that exists. *)
Lemma With_spec σ p objp hs :
  Current.mem_wf σ ->
  Current.objects σ !! p = Some objp ->
  slice_wf (Current.arrays σ) hs ->
  ∃ σ1 objd,
    Current.With growslice p hs σ = Ok (length (Current.objects σ), σ1)
    ∧ Current.objects σ1 = Current.objects σ ++ [objd]
    ∧ contents (Current.arrays σ1) (Current.Negroni_handlers objd)
      = contents (Current.arrays σ) (Current.Negroni_handlers objp)
        ++ contents (Current.arrays σ) hs
    ∧ Current.Negroni_middleware objd
      = Current.build (contents (Current.arrays σ1) (Current.Negroni_handlers objd))
    ∧ Current.mem_wf σ1
    ∧ length (Current.arrays σ) ≤ base (Current.Negroni_handlers objd)
    ∧ length (Current.arrays σ) ≤ length (Current.arrays σ1)
    ∧ ∀ t, slice_wf (Current.arrays σ) t ->
           contents (Current.arrays σ1) t = contents (Current.arrays σ) t.
Proof.
  intros Hwf Hp Hhs. pose proof (Hwf p objp Hp) as Hs.
  unfold Current.With. rewrite Hp. cbv zeta.
  rewrite (make_copy (None : Handler World)) by done.
  set (s := Current.Negroni_handlers objp) in *.
  set (A0 := Current.arrays σ) in *.
  change (fst (make (None : Handler World) (len s) A0)) with (Slice (length A0) 0 (len s) (len s)).
  set (c := Slice (length A0) 0 (len s) (len s)).
  match goal with |- context [append _ _ c _ ?X] => set (A2 := X) in * end.
  assert (Hc : slice_wf A2 c).
  { destruct (make_slice_wf A0 s) as [H|H]; [exact H|done]. }
  assert (Hcc : contents A2 c = contents A0 s).
  { unfold contents at 1. unfold array_of, A2. simpl.
    rewrite lookup_app_r, Nat.sub_diag by done. simpl.
    rewrite drop_0, take_ge; [done|].
    apply Nat.eq_le_incl, (contents_length A0 s Hs). }
  assert (Hys : contents A2 hs = contents A0 hs).
  { apply contents_alloc. by apply slice_wf_in. }
  rewrite Hys.
  set (r3 := append (None : Handler World) growslice c (contents A0 hs) A2).
  assert (Hframe : ∀ t, slice_wf A0 t -> contents (snd r3) t = contents A0 t).
  { intros t Ht. unfold r3. rewrite append_frame.
    - apply contents_alloc. by apply slice_wf_in.
    - destruct (slice_wf_in _ _ Ht) as [Hb|E]; [right|by left].
      unfold A2. rewrite length_app. simpl. split; [lia|left; lia]. }
  eexists _, _. split; [reflexivity|]. simpl.
  split; [reflexivity|]. simpl.
  split; [unfold r3; rewrite append_contents by done; by rewrite Hcc|].
  split; [done|].
  split.
  { intros m objm Hm. simpl in *.
    apply lookup_app_Some in Hm as [Hm|[_ Hm]].
    - apply append_wf_frame, slice_wf_alloc. by eapply Hwf.
    - apply list_lookup_singleton_Some in Hm as [_ <-]. simpl.
      by apply append_wf. }
  split.
  { destruct (append_base (None : Handler World) growslice A2 c (contents A0 hs)) as [E|E];
      fold r3 in E; rewrite E; simpl; [done|].
    unfold A2. rewrite length_app. lia. }
  split; [|exact Hframe].
  etrans; [|apply append_length]. unfold A2. rewrite length_app. lia.
Qed.

(** C4. [Use] with a nil handler panics with "handler cannot be nil" in the
    call itself, whatever the memory and the receiver; with a handler that is
    not nil, on a pipeline that exists, it returns a memory in which that
    pipeline's handler list is the old one with the handler appended and its
    chain is the one built from the new list. *)
Theorem Use_rejects_nil_else_appends σ n :
  Current.Use growslice n None σ = Panic "handler cannot be nil"
  ∧ ∀ f obj,
      Current.mem_wf σ ->
      Current.objects σ !! n = Some obj ->
      ∃ σ' obj',
        Current.Use growslice n (Some f) σ = Ok σ'
        ∧ Current.objects σ' !! n = Some obj'
        ∧ contents (Current.arrays σ') (Current.Negroni_handlers obj')
          = contents (Current.arrays σ) (Current.Negroni_handlers obj) ++ [Some f]
        ∧ Current.Negroni_middleware obj'
          = Current.build (contents (Current.arrays σ') (Current.Negroni_handlers obj')).
Proof.
  split; [done|]. intros f obj Hwf Hn.
  destruct (Use_spec σ n obj f Hwf Hn) as (σ' & obj' & HU & Hobjs & Hc & Hm & _).
  exists σ', obj'. split; [done|]. split.
  - rewrite Hobjs. apply list_lookup_insert_eq. by eapply lookup_lt_Some.
  - split; [done|]. by rewrite Hc.
Qed.

(** C6. [With] on a pipeline [p] and a handler sequence [hs] returns a new
    pipeline, at another address, whose handler list is [p]'s list followed
    by [hs] and whose chain is built from it; [p] is as it was; and after a
    handler is appended to the new pipeline with [Use], [p] still has the
    same chain and slice, with the same contents. *)
Theorem With_is_independent σ p objp hs :
  Current.mem_wf σ ->
  Current.objects σ !! p = Some objp ->
  slice_wf (Current.arrays σ) hs ->
  ∃ d σ1 objd,
    Current.With growslice p hs σ = Ok (d, σ1)
    ∧ d ≠ p
    ∧ Current.objects σ1 !! d = Some objd
    ∧ contents (Current.arrays σ1) (Current.Negroni_handlers objd)
      = contents (Current.arrays σ) (Current.Negroni_handlers objp)
        ++ contents (Current.arrays σ) hs
    ∧ Current.Negroni_middleware objd
      = Current.build (contents (Current.arrays σ) (Current.Negroni_handlers objp)
                       ++ contents (Current.arrays σ) hs)
    ∧ Current.objects σ1 !! p = Some objp
    ∧ contents (Current.arrays σ1) (Current.Negroni_handlers objp)
      = contents (Current.arrays σ) (Current.Negroni_handlers objp)
    ∧ ∀ f, ∃ σ2,
        Current.Use growslice d (Some f) σ1 = Ok σ2
        ∧ Current.objects σ2 !! p = Some objp
        ∧ contents (Current.arrays σ2) (Current.Negroni_handlers objp)
          = contents (Current.arrays σ) (Current.Negroni_handlers objp).
Proof.
  intros Hwf Hp Hhs. pose proof (Hwf p objp Hp) as Hs.
  pose proof (lookup_lt_Some _ _ _ Hp) as Hlt.
  destruct (With_spec σ p objp hs Hwf Hp Hhs)
    as (σ1 & objd & HW & Hobjs & Hc & Hm & Hwf1 & Hbase & Hlen & Hframe).
  assert (Hd : Current.objects σ1 !! length (Current.objects σ) = Some objd).
  { rewrite Hobjs, lookup_app_r, Nat.sub_diag by done. done. }
  assert (Hp1 : Current.objects σ1 !! p = Some objp).
  { rewrite Hobjs. by apply lookup_app_l_Some. }
  exists (length (Current.objects σ)), σ1, objd.
  split; [done|]. split; [lia|]. split; [done|]. split; [done|].
  split; [by rewrite Hm, Hc|]. split; [done|]. split; [by apply Hframe|].
  intros f.
  destruct (Use_spec σ1 _ objd f Hwf1 Hd) as (σ2 & obj' & HU & Hobjs2 & _ & _ & _ & Hfr2).
  exists σ2. split; [done|]. split.
  - rewrite Hobjs2, list_lookup_insert_ne by lia. done.
  - rewrite Hfr2; [by apply Hframe|].
    destruct (slice_wf_in _ _ Hs) as [Hb|E]; [right|by left].
    split; [lia|left; lia].
Qed.

(** [Use] either panics or leaves the slice its pipeline held as it was. *)
Lemma Use_keeps_old_slice σ n obj h σ' :
  Current.mem_wf σ ->
  Current.objects σ !! n = Some obj ->
  Current.Use growslice n h σ = Ok σ' ->
  contents (Current.arrays σ') (Current.Negroni_handlers obj)
  = contents (Current.arrays σ) (Current.Negroni_handlers obj).
Proof.
  intros Hwf Hn HU. destruct h as [f|]; [|done].
  destruct (Use_spec σ n obj f Hwf Hn) as (σ1 & obj' & HU1 & _ & _ & _ & _ & Hfr).
  rewrite HU1 in HU. injection HU as <-.
  apply Hfr. destruct (slice_wf_in _ _ (Hwf n obj Hn)) as [Hb|E]; [right|by left].
  split; [done|right; lia].
Qed.

(** C7. [Handlers] returns the pipeline's current handler slice; whenever a
    [Use] on that pipeline returns, the slice handed out before still has the
    contents it had; and after a handler is appended [Handlers] returns the
    longer list. *)
Theorem Handlers_snapshot_survives_Use σ n s :
  Current.mem_wf σ ->
  Current.Handlers n σ = Ok s ->
  (∃ obj, Current.objects σ !! n = Some obj ∧ s = Current.Negroni_handlers obj)
  ∧ (∀ h σ',
       Current.Use growslice n h σ = Ok σ' ->
       contents (Current.arrays σ') s = contents (Current.arrays σ) s)
  ∧ ∀ f, ∃ σ' s',
      Current.Use growslice n (Some f) σ = Ok σ'
      ∧ contents (Current.arrays σ') s = contents (Current.arrays σ) s
      ∧ Current.Handlers n σ' = Ok s'
      ∧ contents (Current.arrays σ') s' = contents (Current.arrays σ) s ++ [Some f].
Proof.
  intros Hwf HH. unfold Current.Handlers in HH.
  destruct (Current.objects σ !! n) as [obj|] eqn:Hn; [|done].
  injection HH as <-. split; [by exists obj|]. split.
  { intros h σ' HU. by eapply Use_keeps_old_slice. }
  intros f.
  destruct (Use_spec σ n obj f Hwf Hn) as (σ' & obj' & HU & Hobjs & Hc & _ & _ & _).
  exists σ', (Current.Negroni_handlers obj').
  split; [done|]. split; [by eapply Use_keeps_old_slice|].
  split; [|done]. unfold Current.Handlers. rewrite Hobjs.
  rewrite list_lookup_insert_eq by (by eapply lookup_lt_Some). done.
Qed.

(** Appending a list of handlers, none of them nil, one at a time. *)
Lemma use_each_spec (hs : list (Handler World)) : ∀ σ n obj,
  Current.mem_wf σ ->
  Current.objects σ !! n = Some obj ->
  Current.Negroni_middleware obj
    = Current.build (contents (Current.arrays σ) (Current.Negroni_handlers obj)) ->
  Forall is_Some hs ->
  ∃ σ' obj',
    use_each growslice n hs σ = Ok σ'
    ∧ Current.objects σ' !! n = Some obj'
    ∧ contents (Current.arrays σ') (Current.Negroni_handlers obj')
      = contents (Current.arrays σ) (Current.Negroni_handlers obj) ++ hs
    ∧ Current.Negroni_middleware obj'
      = Current.build (contents (Current.arrays σ) (Current.Negroni_handlers obj) ++ hs).
Proof.
  induction hs as [|h hs IH]; intros σ n obj Hwf Hn Hcons Hsome.
  - exists σ, obj. rewrite app_nil_r. by simpl.
  - apply Forall_cons in Hsome as [[f ->] Hsome].
    destruct (Use_spec σ n obj f Hwf Hn) as (σ1 & obj1 & HU & Hobjs & Hc & Hm & Hwf1 & _).
    assert (Hn1 : Current.objects σ1 !! n = Some obj1).
    { rewrite Hobjs. apply list_lookup_insert_eq. by eapply lookup_lt_Some. }
    destruct (IH σ1 n obj1 Hwf1 Hn1) as (σ' & obj' & HU' & Hn' & Hc' & Hm'); [|done|].
    { by rewrite Hm, Hc. }
    exists σ', obj'. cbn [use_each]. rewrite HU. split; [done|]. split; [done|].
    rewrite Hc', Hm', Hc, <- !app_assoc. done.
Qed.

(** With a nil in the list the appending stops there, in a panic. *)
Lemma use_each_nil_panics (hs : list (Handler World)) : ∀ σ n,
  None ∈ hs -> ∃ msg, use_each growslice n hs σ = Panic msg.
Proof.
  induction hs as [|h hs IH]; intros σ n Hin.
  - by apply elem_of_nil in Hin.
  - cbn [use_each]. destruct (Current.Use growslice n h σ) as [σ'|msg] eqn:HU.
    + apply IH. apply elem_of_cons in Hin as [<-|Hin]; [done|exact Hin].
    + by exists msg.
Qed.

(** C5. Starting from [New()] and appending h1..hn (none of them nil) one at
    a time with [Use] gives a pipeline with the same handler list and the same
    chain as [New(h1, ..., hn)], so that every dispatch through the one gives
    the same log of visits and the same outcome as through the other. *)
Theorem incremental_Use_equals_New σ (hs : list (Handler World)) s :
  Current.mem_wf σ ->
  Forall is_Some hs ->
  slice_wf (Current.arrays σ) s ->
  contents (Current.arrays σ) s = hs ->
  ∃ σ1 objp objq,
    use_each growslice (fst (Current.New nil_slice σ)) hs (snd (Current.New nil_slice σ))
      = Ok σ1
    ∧ Current.objects σ1 !! fst (Current.New nil_slice σ) = Some objp
    ∧ Current.objects (snd (Current.New s σ)) !! fst (Current.New s σ) = Some objq
    ∧ contents (Current.arrays σ1) (Current.Negroni_handlers objp) = hs
    ∧ contents (Current.arrays (snd (Current.New s σ))) (Current.Negroni_handlers objq) = hs
    ∧ Current.Negroni_middleware objp = Current.Negroni_middleware objq
    ∧ ∀ w, Current.Negroni_ServeHTTP NewResponseWriter (fst (Current.New nil_slice σ)) σ1 w
           = Current.Negroni_ServeHTTP NewResponseWriter
               (fst (Current.New s σ)) (snd (Current.New s σ)) w.
Proof.
  intros Hwf Hsome Hs Hcont.
  assert (Hnil : slice_wf (Current.arrays σ) nil_slice).
  { split; simpl; lia. }
  destruct (New_spec σ nil_slice Hwf Hnil) as (Hp & Harr0 & Hobj0 & Hwf0).
  set (σ0 := snd (Current.New nil_slice σ)) in *.
  set (obj0 := {| Current.Negroni_middleware :=
                    Current.build (contents (Current.arrays σ) nil_slice);
                  Current.Negroni_handlers := nil_slice |}) in *.
  assert (Hl0 : Current.objects σ0 !! length (Current.objects σ) = Some obj0).
  { rewrite Hobj0, lookup_app_r, Nat.sub_diag by done. done. }
  destruct (use_each_spec hs σ0 _ obj0 Hwf0 Hl0) as (σ1 & objp & HU & Hn & Hc & Hm);
    [by rewrite Harr0|done|].
  exists σ1, objp, {| Current.Negroni_middleware := Current.build (contents (Current.arrays σ) s);
                      Current.Negroni_handlers := s |}.
  assert (Hq : Current.objects (snd (Current.New s σ)) !! fst (Current.New s σ)
               = Some {| Current.Negroni_middleware :=
                           Current.build (contents (Current.arrays σ) s);
                         Current.Negroni_handlers := s |}).
  { simpl. rewrite lookup_app_r, Nat.sub_diag by done. done. }
  change (fst (Current.New nil_slice σ)) with (length (Current.objects σ)).
  split; [done|]. split; [done|]. split; [done|].
  split; [by rewrite Hc|]. split; [done|].
  assert (Heq : Current.Negroni_middleware objp = Current.build hs).
  { by rewrite Hm. }
  split; [by rewrite Heq, Hcont|].
  intros w. unfold Current.Negroni_ServeHTTP. rewrite Hn, Hq.
  simpl. by rewrite Heq, Hcont.
Qed.

End CurrentPipeline.

(** ** Listen address *)

(** C8. [Run] listens on the address argument when one is given; otherwise on
    ":" followed by the value of PORT when that is not empty; otherwise on
    the default address, ":8080". *)
Theorem Run_address_precedence (env : gmap string string) :
  (∀ a rest, Current.Run env (a :: rest) = a)
  ∧ (Getenv env "PORT" ≠ EmptyString ->
       Current.Run env [] = ":" +:+ Getenv env "PORT")
  ∧ (Getenv env "PORT" = EmptyString -> Current.Run env [] = Current.DefaultAddress)
  ∧ Current.DefaultAddress = ":8080".
Proof.
  split; [done|]. unfold Current.Run, Current.detectAddress.
  split; [|split; [|done]]; intros H; by case_decide.
Qed.

(** ** The earlier version *)

Section EarlyChain.
Context {World : Type}.
Variable Written : World -> option bool.
Variable NewResponseWriter : World -> World.
Implicit Types (hs : list (Handler World)) (w : World) (i : Z) (d k : nat).

Lemma early_build_out_of_range i hs :
  ¬ (0 ≤ i < Z.of_nat (length hs))%Z ->
  Early.build i hs = Panic "index out of range".
Proof.
  intros Hout. funelim (Early.build i hs); try done.
  - apply lookup_lt_Some in Heq0. lia.
  - apply lookup_lt_Some in Heq0. lia.
Qed.

Lemma early_build_in_range i hs :
  (0 ≤ i < Z.of_nat (length hs))%Z ->
  Early.build i hs = Ok (Early.chain_of (drop (Z.to_nat i) hs)).
Proof.
  intros Hin. funelim (Early.build i hs).
  - lia.
  - apply lookup_ge_None in Heq. lia.
  - rewrite H by lia.
    rewrite (drop_S _ _ _ Heq0).
    replace (Z.to_nat (i + 1)) with (S (Z.to_nat i)) by lia. done.
  - rewrite (drop_S _ _ _ Heq0).
    rewrite drop_ge by lia. done.
Qed.

Lemma early_serve_node d (h : Handler World) m w :
  Early.middleware_ServeHTTP Written d (Early.Middleware h (Some m)) w
  = match Written w with
    | None => ([Serve d], Panicked w)
    | Some true => ([Serve d], Returned w)
    | Some false =>
        match h with
        | Some f =>
            (Serve d :: Handle d f ::
               fst (interp d (Early.middleware_ServeHTTP Written (S d) m) (f w)),
             snd (interp d (Early.middleware_ServeHTTP Written (S d) m) (f w)))
        | None => ([Serve d], Panicked w)
        end
    end.
Proof. simpl. by destruct (Written w) as [[|]|], h. Qed.

Lemma early_chain_cons (h : Handler World) hs :
  Early.chain_of (h :: hs) = Early.Middleware h (Some (Early.chain_of hs)).
Proof. done. Qed.

(** Every event of serving the chain of [hs] from position [d] lies between
    [d] and the sentinel's position. *)
Lemma early_serve_depth hs : ∀ d w,
  Forall (fun e => d ≤ depth e ≤ d + length hs)
    (fst (Early.middleware_ServeHTTP Written d (Early.chain_of hs) w)).
Proof.
  induction hs as [|h hs IH]; intros d w.
  - unfold Early.chain_of, foldr, Early.void_middleware.
    rewrite early_serve_node.
    destruct (Written w) as [[|]|]; simpl; repeat constructor; simpl; lia.
  - rewrite early_chain_cons, early_serve_node.
    destruct (Written w) as [[|]|]; [| |]; try (simpl; repeat constructor; simpl; lia).
    destruct h as [f|]; [|simpl; repeat constructor; simpl; lia].
    simpl fst. constructor; [simpl; lia|]. constructor; [simpl; lia|].
    apply interp_Forall; [simpl; lia|].
    intros w'. eapply Forall_impl; [apply IH|]. simpl. intros; lia.
Qed.

Lemma early_serve_deeper hs d w :
  Forall (fun e => depth e ≠ d)
    (fst (Early.middleware_ServeHTTP Written (S d) (Early.chain_of hs) w)).
Proof.
  eapply Forall_impl; [apply early_serve_depth|]. simpl. intros; lia.
Qed.

(** Short circuit in the earlier version, from any position. *)
Lemma early_serve_short hs : ∀ k d w,
  k < length hs ->
  (∀ j : nat, j < k ->
     yields (d + j) (fst (Early.middleware_ServeHTTP Written d (Early.chain_of hs) w)) = 1) ->
  yields (d + k) (fst (Early.middleware_ServeHTTP Written d (Early.chain_of hs) w)) = 0 ->
  Forall (fun e => depth e ≤ d + k)
    (fst (Early.middleware_ServeHTTP Written d (Early.chain_of hs) w)).
Proof.
  induction hs as [|h hs IH]; intros k d w Hk Hy Hz; [simpl in Hk; lia|].
  rewrite early_chain_cons, early_serve_node in *.
  destruct (Written w) as [[|]|]; [| |]; try (simpl; repeat constructor; simpl; lia).
  destruct h as [f|]; [|simpl; repeat constructor; simpl; lia].
  simpl fst in *.
  set (next := Early.middleware_ServeHTTP Written (S d) (Early.chain_of hs)) in *.
  constructor; [simpl; lia|]. constructor; [simpl; lia|].
  destruct (interp_yields d next (f w)) as [Hnone Hone].
  { intros w'. apply early_serve_deeper. }
  destruct k as [|k].
  - rewrite Nat.add_0_r, yields_serve, yields_handle in Hz.
    rewrite Hnone by done. constructor.
  - assert (Hy0 := Hy 0 ltac:(lia)).
    rewrite Nat.add_0_r, yields_serve, yields_handle in Hy0.
    destruct (Hone Hy0) as [w1 Hlog]. rewrite Hlog in *.
    constructor; [simpl; lia|].
    replace (d + S k) with (S d + k) in * by lia.
    apply IH; [simpl in Hk; lia| |].
    + intros j Hj. specialize (Hy (S j) ltac:(lia)).
      rewrite yields_serve, yields_handle, yields_yield_ne in Hy by lia.
      by replace (S d + j) with (d + S j) by lia.
    + by rewrite yields_serve, yields_handle, yields_yield_ne in Hz by lia.
Qed.

(** Visiting order in the earlier version, from any position. The sentinel's
    no-op is skipped when the sink shows output by then. *)
Lemma early_serve_order hs : ∀ d w,
  (∀ j : nat, j < length hs ->
     yields (d + j) (fst (Early.middleware_ServeHTTP Written d (Early.chain_of hs) w)) = 1) ->
  ∃ tl, Some <$> handled (fst (Early.middleware_ServeHTTP Written d (Early.chain_of hs) w))
        = hs ++ tl
        ∧ (tl = [] ∨ tl = [Some Early.voidHandler]).
Proof.
  induction hs as [|h hs IH]; intros d w Hy.
  - unfold Early.chain_of, foldr, Early.void_middleware.
    rewrite early_serve_node.
    destruct (Written w) as [[|]|]; simpl; eauto.
  - assert (Hy0 := Hy 0 ltac:(simpl; lia)).
    rewrite early_chain_cons, early_serve_node in *.
    destruct (Written w) as [[|]|]; [| |]; try (by vm_compute in Hy0).
    destruct h as [f|]; [|by vm_compute in Hy0].
    simpl fst in *.
    set (next := Early.middleware_ServeHTTP Written (S d) (Early.chain_of hs)) in *.
    rewrite Nat.add_0_r, yields_serve, yields_handle in Hy0.
    destruct (interp_yields d next (f w)) as [_ Hone].
    { intros w'. apply early_serve_deeper. }
    destruct (Hone Hy0) as [w1 Hlog]. rewrite Hlog in *.
    destruct (IH (S d) w1) as (tl & Htl & Hor).
    { intros j Hj. specialize (Hy (S j) ltac:(simpl; lia)).
      rewrite yields_serve, yields_handle, yields_yield_ne in Hy by lia.
      by replace (S d + j) with (d + S j) by lia. }
    exists tl. split; [|done].
    rewrite handled_serve, handled_cons_handle, handled_yield, fmap_cons.
    fold next in Htl. rewrite Htl. done.
Qed.

Lemma early_nodes_chain hs :
  Early.nodes (Early.chain_of hs) = hs ++ [Some Early.voidHandler].
Proof. induction hs as [|h hs IH]; [done|]. simpl. by rewrite IH. Qed.

(** [Use] builds the chain of the extended list. *)
Lemma early_Use_chain (n : Early.Negroni World) (h : Handler World) :
  Early.Use n h
  = Ok {| Early.Negroni_middleware := Early.chain_of (Early.Negroni_handlers n ++ [h]);
          Early.Negroni_handlers := Early.Negroni_handlers n ++ [h] |}.
Proof.
  unfold Early.Use. rewrite early_build_in_range.
  - done.
  - rewrite length_app. simpl. lia.
Qed.

(** [Use] of this version takes a nil handler as it takes any other. *)
Lemma early_Use_accepts_nil (n : Early.Negroni World) :
  Early.Use n None
  = Ok {| Early.Negroni_middleware := Early.chain_of (Early.Negroni_handlers n ++ [None]);
          Early.Negroni_handlers := Early.Negroni_handlers n ++ [None] |}.
Proof. apply early_Use_chain. Qed.


(** C9. [build(i, handlers)] returns a chain when [0 <= i < len(handlers)]
    and panics on the index otherwise, in particular on the empty list; [New]
    installs the sentinel chain without calling [build]; and [Use] calls
    [build(0, ...)] on the extended list, which is never out of range: [Use]
    always returns. *)
Theorem build_total_within_bounds :
  (∀ i hs, (0 ≤ i < Z.of_nat (length hs))%Z ->
     Early.build i hs = Ok (Early.chain_of (drop (Z.to_nat i) hs)))
  ∧ (∀ i hs, ¬ (0 ≤ i < Z.of_nat (length hs))%Z ->
     Early.build i hs = Panic "index out of range")
  ∧ Early.build 0 (@nil (Handler World)) = Panic "index out of range"
  ∧ Early.Negroni_middleware (@Early.New World) = Early.void_middleware
  ∧ Early.Negroni_handlers (@Early.New World) = []
  ∧ ∀ (n : Early.Negroni World) (h : Handler World),
      Early.build 0 (Early.Negroni_handlers n ++ [h])
        = Ok (Early.chain_of (Early.Negroni_handlers n ++ [h]))
      ∧ Early.Use n h
        = Ok {| Early.Negroni_middleware := Early.chain_of (Early.Negroni_handlers n ++ [h]);
                Early.Negroni_handlers := Early.Negroni_handlers n ++ [h] |}.
Proof.
  split; [apply early_build_in_range|].
  split; [apply early_build_out_of_range|].
  split; [apply early_build_out_of_range; simpl; lia|].
  split; [done|]. split; [done|].
  intros n h. split; [|apply early_Use_chain].
  rewrite early_build_in_range; [done|]. rewrite length_app. simpl. lia.
Qed.

End EarlyChain.

(** ** Both versions: short circuit and the sentinel *)

Section Dispatch.
Context {World : Type}.
Variable Written : World -> option bool.
Implicit Types (hs : list (Handler World)) (w : World) (d k : nat).
Implicit Types (l : list (Event World)).

(** C1. The chain built from a list of n handlers has n + 1 nodes: the
    handlers in list order, then the sentinel with its no-op handler; the
    empty list gives the sentinel itself; and in a dispatch where the handler
    at every position calls its continuation exactly once, the handlers
    invoked are those of the list, in order, followed by the sentinel's
    no-op. The earlier [build(0, handlers)] gives a chain of the same shape
    for a list that is not empty, visited in the same order (its sentinel
    skips the no-op when the sink shows output). *)
Theorem build_chain_visits_in_list_order hs :
  Current.nodes (Current.build hs) = hs ++ [Some Current.voidHandler]
  ∧ length (Current.nodes (Current.build hs)) = length hs + 1
  ∧ Current.build (@nil (Handler World)) = Current.voidMiddleware
  ∧ (∀ w,
      (∀ i, i < length hs ->
         yields i (fst (Current.middleware_ServeHTTP 0 (Current.build hs) w)) = 1) ->
      Some <$> handled (fst (Current.middleware_ServeHTTP 0 (Current.build hs) w))
      = hs ++ [Some Current.voidHandler])
  ∧ (hs ≠ [] ->
     ∃ m, Early.build 0 hs = Ok m
          ∧ Early.nodes m = hs ++ [Some Early.voidHandler]
          ∧ length (Early.nodes m) = length hs + 1
          ∧ ∀ w,
              (∀ i, i < length hs ->
                 yields i (fst (Early.middleware_ServeHTTP Written 0 m w)) = 1) ->
              ∃ tl, Some <$> handled (fst (Early.middleware_ServeHTTP Written 0 m w))
                    = hs ++ tl
                    ∧ (tl = [] ∨ tl = [Some Early.voidHandler])).
Proof.
  split; [apply nodes_build|].
  split; [rewrite nodes_build, length_app; simpl; lia|].
  split; [done|].
  split; [intros w Hy; by apply serve_build_order|].
  intros Hne. exists (Early.chain_of hs).
  split.
  { rewrite early_build_in_range, drop_0; [done|].
    destruct hs; [done|]. simpl. lia. }
  split; [apply early_nodes_chain|].
  split; [rewrite early_nodes_chain, length_app; simpl; lia|].
  intros w Hy. by apply early_serve_order.
Qed.

(** C2. Short circuit. Let [l] be the log of a dispatch through the chain
    built from n handlers, in either version, and k be between 1 and n. If in
    [l] the handlers 1..k-1 each call their continuation exactly once and
    handler k does not call its continuation, then every event of [l] belongs
    to one of the first k nodes: no node after the k-th is entered and none of
    the handlers k+1..n is invoked. *)
Theorem short_circuit hs k w l :
  1 ≤ k ≤ length hs ->
  l = fst (Current.middleware_ServeHTTP 0 (Current.build hs) w)
  ∨ (∃ m, Early.build 0 hs = Ok m ∧ l = fst (Early.middleware_ServeHTTP Written 0 m w)) ->
  (∀ i, 1 ≤ i < k -> yields (i - 1) l = 1) ->
  yields (k - 1) l = 0 ->
  (∀ e, e ∈ l -> depth e < k)
  ∧ ∀ j, k < j ≤ length hs -> (Serve (j - 1) ∉ l) ∧ ∀ f, Handle (j - 1) f ∉ l.
Proof.
  intros Hk Hl Hy Hz.
  assert (Hall : Forall (fun e => depth e ≤ 0 + (k - 1)) l).
  { assert (Hy' : ∀ i, i < k - 1 -> yields (0 + i) l = 1).
    { intros i Hi. specialize (Hy (i + 1) ltac:(lia)).
      by replace (i + 1 - 1) with (0 + i) in Hy by lia. }
    destruct Hl as [->|(m & Hm & ->)].
    - apply serve_build_short; [lia|done|done].
    - rewrite early_build_in_range in Hm by lia. injection Hm as <-.
      rewrite drop_0. apply early_serve_short; [lia|done|done]. }
  assert (Hd : ∀ e, e ∈ l -> depth e < k).
  { intros e He. rewrite Forall_forall in Hall. specialize (Hall e He). lia. }
  split; [exact Hd|].
  intros j Hj. split; [|intros f]; intros Hin; apply Hd in Hin; simpl in Hin; lia.
Qed.

(** C10. The sentinel's handler returns without calling its continuation, in
    both versions, so serving the sentinel ends there. The sentinel's stored
    next is the zero node, whose handler is nil and whose entry point would
    panic; no dispatch through a built chain ever enters it: every event lies
    at or before the sentinel's position. *)
Theorem sentinel_ends_dispatch hs w d :
  ((∀ w', Current.voidHandler w' = Return w')
   ∧ Current.middleware_ServeHTTP d Current.voidMiddleware w
     = ([Serve d; Handle d Current.voidHandler], Returned w)
   ∧ @Current.voidMiddleware World
     = Current.Middleware (Some Current.voidHandler) (Some Current.zero_middleware)
   ∧ @Current.zero_middleware World = Current.Middleware None None
   ∧ Current.middleware_ServeHTTP d Current.zero_middleware w = ([Serve d], Panicked w)
   ∧ (∀ e, e ∈ fst (Current.middleware_ServeHTTP 0 (Current.build hs) w) ->
        depth e ≤ length hs)
   ∧ Serve (S (length hs)) ∉ fst (Current.middleware_ServeHTTP 0 (Current.build hs) w))
  ∧ ((∀ w', Early.voidHandler w' = Return w')
     ∧ (Written w = Some false ->
          Early.middleware_ServeHTTP Written d Early.void_middleware w
          = ([Serve d; Handle d Early.voidHandler], Returned w))
     ∧ @Early.void_middleware World
       = Early.Middleware (Some Early.voidHandler) (Some Early.zero_middleware)
     ∧ @Early.zero_middleware World = Early.Middleware None None
     ∧ (∀ e, e ∈ fst (Early.middleware_ServeHTTP Written d Early.zero_middleware w) ->
          e = Serve d)
     ∧ (∀ e, e ∈ fst (Early.middleware_ServeHTTP Written 0 (Early.chain_of hs) w) ->
          depth e ≤ length hs)
     ∧ Serve (S (length hs))
         ∉ fst (Early.middleware_ServeHTTP Written 0 (Early.chain_of hs) w)).
Proof.
  assert (Hc : ∀ e, e ∈ fst (Current.middleware_ServeHTTP 0 (Current.build hs) w) ->
               depth e ≤ length hs).
  { intros e He. pose proof (serve_build_depth hs 0 w) as Hall.
    rewrite Forall_forall in Hall. specialize (Hall e He). simpl in Hall. lia. }
  assert (He : ∀ e, e ∈ fst (Early.middleware_ServeHTTP Written 0 (Early.chain_of hs) w) ->
               depth e ≤ length hs).
  { intros e Hin. pose proof (early_serve_depth Written hs 0 w) as Hall.
    rewrite Forall_forall in Hall. specialize (Hall e Hin). simpl in Hall. lia. }
  split.
  - do 5 (split; [done|]). split; [exact Hc|].
    intros Hin. apply Hc in Hin. simpl in Hin. lia.
  - split; [done|]. split.
    { intros HW. simpl. by rewrite HW. }
    do 2 (split; [done|]). split.
    { intros e. simpl. destruct (Written w) as [[|]|]; simpl;
        intros Hin; by apply list_elem_of_singleton in Hin. }
    split; [exact He|].
    intros Hin. apply He in Hin. simpl in Hin. lia.
Qed.

End Dispatch.

(** ** The theorems at work on the sample handlers *)

Lemma double_ge (c n : nat) : n ≤ Sample.double c n.
Proof. unfold Sample.double. lia. Qed.

Lemma mem2_wf : Current.mem_wf Sample.mem2.
Proof.
  intros n obj H. destruct n as [|n]; simpl in H.
  - injection H as <-. split; simpl; lia.
  - by destruct n.
Qed.

(** Two passing handlers on a fresh sink are visited in list order. *)
Lemma build_chain_visits_in_list_order_witness :
  Some <$> handled (fst (Current.middleware_ServeHTTP 0 (Current.build Sample.two)
                           (Sample.Raw [])))
  = Sample.two ++ [Some Current.voidHandler].
Proof.
  apply (proj1 (proj2 (proj2 (proj2
    (build_chain_visits_in_list_order Sample.Written Sample.two))))).
  intros i Hi. simpl in Hi.
  destruct i as [|[|i]]; [reflexivity|reflexivity|lia].
Defined.

(** Three handlers, the second withholds its continuation: the third node is
    not entered. *)
Lemma short_circuit_witness :
  (Serve 2 ∉ fst (Current.middleware_ServeHTTP 0 (Current.build Sample.three)
                    (Sample.Raw [])))
  ∧ ∀ f, Handle 2 f ∉ fst (Current.middleware_ServeHTTP 0 (Current.build Sample.three)
                             (Sample.Raw [])).
Proof.
  refine (proj2 (short_circuit Sample.Written Sample.three 2 (Sample.Raw []) _
                   _ (or_introl eq_refl) _ _) 3 _).
  - simpl. lia.
  - intros i Hi. assert (i = 1) as -> by lia. reflexivity.
  - reflexivity.
  - simpl. lia.
Defined.


(** Appending to pipeline 0 of [mem2]. *)
Lemma Use_rejects_nil_else_appends_witness :
  ∃ σ' obj',
    Current.Use Sample.double 0 (Some (Sample.stop 3)) Sample.mem2 = Ok σ'
    ∧ Current.objects σ' !! 0 = Some obj'
    ∧ contents (Current.arrays σ') (Current.Negroni_handlers obj')
      = Sample.two ++ [Some (Sample.stop 3)]
    ∧ Current.Negroni_middleware obj'
      = Current.build (contents (Current.arrays σ') (Current.Negroni_handlers obj')).
Proof.
  refine (proj2 (Use_rejects_nil_else_appends Sample.double double_ge Sample.mem2 0)
            (Sample.stop 3) Sample.pipeline0 mem2_wf _).
  reflexivity.
Defined.

(** [New()] then two [Use]s, against [New(two...)]. *)
Lemma incremental_Use_equals_New_witness :
  ∃ σ1, use_each Sample.double 0 Sample.two (snd (Current.New nil_slice Sample.mem1))
        = Ok σ1
        ∧ ∀ w, Current.Negroni_ServeHTTP Sample.NewResponseWriter 0 σ1 w
               = Current.Negroni_ServeHTTP Sample.NewResponseWriter 0 Sample.mem2 w.
Proof.
  destruct (incremental_Use_equals_New Sample.double double_ge Sample.NewResponseWriter
              Sample.mem1 Sample.two Sample.whole) as (σ1 & _ & _ & HU & _ & _ & _ & _ & _ & Hw).
  - intros n obj H. by destruct n.
  - unfold Sample.two. repeat constructor; by eexists.
  - split; simpl; lia.
  - reflexivity.
  - exists σ1. split; [exact HU|exact Hw].
Defined.

(** Deriving from pipeline 0 of [mem2] with one more handler. *)
Lemma With_is_independent_witness :
  ∃ d σ1, Current.With Sample.double 0 Sample.second Sample.mem2 = Ok (d, σ1)
          ∧ d ≠ 0
          ∧ ∀ f, ∃ σ2, Current.Use Sample.double d (Some f) σ1 = Ok σ2
                       ∧ Current.objects σ2 !! 0 = Current.objects Sample.mem2 !! 0.
Proof.
  destruct (With_is_independent Sample.double double_ge Sample.mem2 0
              Sample.pipeline0 Sample.second mem2_wf)
    as (d & σ1 & objd & HW & Hd & _ & _ & _ & _ & _ & HU).
  - reflexivity.
  - split; simpl; lia.
  - exists d, σ1. split; [exact HW|]. split; [exact Hd|].
    intros f. destruct (HU f) as (σ2 & H2 & Hp & _). exists σ2. split; [exact H2|exact Hp].
Defined.

(** The slice handed out by pipeline 0 of [mem2] still reads [two] after a
    [Use]. *)
Lemma Handlers_snapshot_survives_Use_witness :
  ∃ σ', Current.Use Sample.double 0 (Some (Sample.stop 3)) Sample.mem2 = Ok σ'
        ∧ contents (Current.arrays σ') Sample.whole = Sample.two.
Proof.
  destruct (Handlers_snapshot_survives_Use Sample.double double_ge Sample.mem2 0
              Sample.whole mem2_wf)
    as (_ & _ & Hall).
  - reflexivity.
  - destruct (Hall (Sample.stop 3)) as (σ' & s' & HU & Hc & _).
    exists σ'. split; [exact HU|exact Hc].
Defined.

(** No argument, PORT set to 3000. *)
Lemma Run_address_precedence_witness :
  Current.Run Sample.env_port [] = ":3000".
Proof.
  refine (proj1 (proj2 (Run_address_precedence Sample.env_port)) _).
  vm_compute. discriminate.
Defined.

(** [build(0, handlers)] on a list of one handler. *)
Lemma build_total_within_bounds_witness :
  Early.build 0 [Some (Sample.pass 1)] = Ok (Early.chain_of [Some (Sample.pass 1)]).
Proof.
  apply (proj1 (@build_total_within_bounds Sample.Sink) 0%Z [Some (Sample.pass 1)]).
  simpl. lia.
Defined.

(** [Handlers] hands out the pipeline's own slice, and what is shown about it
    above is about [Use] on that same pipeline. Two pipelines made with [New]
    over one caller array share it: here [Use] on pipeline 0 has room in the
    array and writes the second element, which the slice handed out by
    pipeline 1 covers. *)
Example Use_on_sharing_pipeline :
  Current.Handlers 1 Sample.shared = Ok Sample.whole
  ∧ contents (Current.arrays Sample.shared) Sample.whole = Sample.two
  ∧ ∃ σ', Current.Use Sample.double 0 (Some (Sample.stop 3)) Sample.shared = Ok σ'
          ∧ contents (Current.arrays σ') Sample.whole
            = [Some (Sample.pass 1); Some (Sample.stop 3)].
Proof. split; [done|]. split; [done|]. eexists. split; [reflexivity|done]. Qed.

(** * Further properties *)

(** ** Plain handlers behind [Wrap] *)

Section Wrapped.
Context {World : Type}.
Variable Written : World -> option bool.
Implicit Types (ps : list (PlainHandler World)) (w : World) (d : nat).
Implicit Types (next : World -> list (Event World) * Outcome World).

Lemma interp_ext d next next' (b : Behaviour World) :
  (∀ w, next w = next' w) -> interp d next b = interp d next' b.
Proof.
  intros Hext. induction b as [w|w|w k IH]; simpl; try done.
  by rewrite Hext, IH.
Qed.

(** One wrapped plain handler in front of any continuation. *)
Lemma interp_wrapped d next (p : PlainHandler World) w :
  interp d next
    (match p w with
     | Returned w1 =>
         CallNext w1 (fun o =>
           match o with
           | Returned w2 => Return w2
           | Panicked w2 => Panics w2
           end)
     | Panicked w1 => Panics w1
     end)
  = match p w with
    | Returned w1 => (Yield d :: fst (next w1), snd (next w1))
    | Panicked w1 => ([], Panicked w1)
    end.
Proof.
  destruct (p w) as [w1|w1]; simpl; [|done].
  destruct (next w1) as [l [w2|w2]]; simpl; by rewrite app_nil_r.
Qed.

(** Serving a node whose handler is a wrapped plain handler. *)
Lemma serve_cons_wrap (p : PlainHandler World) (hs : list (Handler World)) d w :
  ∃ f, Current.Wrap (Some p) = Some f
    ∧ Current.middleware_ServeHTTP d (Current.build (Current.Wrap (Some p) :: hs)) w
      = match p w with
        | Returned w1 =>
            (Serve d :: Handle d f :: Yield d ::
               fst (Current.middleware_ServeHTTP (S d) (Current.build hs) w1),
             snd (Current.middleware_ServeHTTP (S d) (Current.build hs) w1))
        | Panicked w1 => ([Serve d; Handle d f], Panicked w1)
        end.
Proof.
  eexists. split; [reflexivity|].
  etrans; [apply (serve_cons_some d _ hs w)|]. cbv beta.
  etrans; [apply (f_equal (fun r => (Serve d :: Handle d _ :: fst r, snd r))),
             interp_wrapped|].
  by destruct (p w).
Qed.

Lemma early_serve_cons_wrap (p : PlainHandler World) (hs : list (Handler World)) d w :
  Written w = Some false ->
  ∃ f, Early.Wrap (Some p) = Some f
    ∧ Early.middleware_ServeHTTP Written d (Early.chain_of (Early.Wrap (Some p) :: hs)) w
      = match p w with
        | Returned w1 =>
            (Serve d :: Handle d f :: Yield d ::
               fst (Early.middleware_ServeHTTP Written (S d) (Early.chain_of hs) w1),
             snd (Early.middleware_ServeHTTP Written (S d) (Early.chain_of hs) w1))
        | Panicked w1 => ([Serve d; Handle d f], Panicked w1)
        end.
Proof.
  intros HW. eexists. split; [reflexivity|].
  rewrite early_chain_cons, early_serve_node, HW. cbv beta iota.
  etrans; [apply (f_equal (fun r => (Serve d :: Handle d _ :: fst r, snd r))),
             interp_wrapped|].
  by destruct (p w).
Qed.

(** X1. A chain built from wrapped plain handlers runs them in list order,
    each on the world the one before left, and ends as the first one that
    panics does, or returns the last world; and when none panics every
    position calls its continuation exactly once. *)
Theorem wrapped_chain_runs_in_sequence ps d w :
  snd (Current.middleware_ServeHTTP d
         (Current.build ((fun p => Current.Wrap (Some p)) <$> ps)) w)
  = run_plain ps w
  ∧ ((∃ w', run_plain ps w = Returned w') ->
     ∀ i, i < length ps ->
       yields (d + i)
         (fst (Current.middleware_ServeHTTP d
                 (Current.build ((fun p => Current.Wrap (Some p)) <$> ps)) w)) = 1).
Proof.
  revert d w. induction ps as [|p ps IH]; intros d w.
  - split; [done|]. intros _ i Hi. simpl in Hi. lia.
  - rewrite fmap_cons.
    destruct (serve_cons_wrap p ((fun p => Current.Wrap (Some p)) <$> ps) d w)
      as (f & _ & ->).
    cbn [run_plain]. destruct (p w) as [w1|w1]; cbn [fst snd].
    + destruct (IH (S d) w1) as [IHo IHy]. split; [exact IHo|].
      intros Hret i Hi.
      rewrite yields_serve, yields_handle.
      destruct i as [|i].
      * rewrite Nat.add_0_r, yields_yield_eq.
        by rewrite (yields_other d _ (serve_build_deeper _ d w1)).
      * rewrite yields_yield_ne by lia.
        replace (d + S i) with (S d + i) by lia.
        apply IHy; [done|simpl in Hi; lia].
    + split; [done|]. by intros [w' Hw'].
Qed.

(** X2. In the earlier version a chain of wrapped plain handlers runs them in
    list order only as long as the sink shows no output: it stops, returning,
    in front of the first handler that finds output written, and panics when
    the sink is not a [ResponseWriter]. *)
Theorem early_wrapped_chain_stops_when_written ps d w :
  snd (Early.middleware_ServeHTTP Written d
         (Early.chain_of ((fun p => Early.Wrap (Some p)) <$> ps)) w)
  = run_plain_guarded Written ps w.
Proof.
  revert d w. induction ps as [|p ps IH]; intros d w.
  - unfold Early.chain_of, Early.void_middleware. simpl.
    by destruct (Written w) as [[|]|].
  - rewrite fmap_cons. cbn [run_plain_guarded].
    destruct (Written w) as [[|]|] eqn:HW.
    + rewrite early_chain_cons, early_serve_node, HW. done.
    + destruct (early_serve_cons_wrap p ((fun p => Early.Wrap (Some p)) <$> ps) d w HW)
        as (f & _ & ->).
      destruct (p w) as [w1|w1]; cbn [fst snd]; [apply IH|done].
    + rewrite early_chain_cons, early_serve_node, HW. done.
Qed.

(** X3. With a sink whose flag is never set the two versions do the same:
    serving the chain of a handler list gives the same log and the same
    outcome in both. *)
Theorem versions_agree_when_never_written (hs : list (Handler World)) d w :
  (∀ w', Written w' = Some false) ->
  Early.middleware_ServeHTTP Written d (Early.chain_of hs) w
  = Current.middleware_ServeHTTP d (Current.build hs) w.
Proof.
  intros HW. revert d w. induction hs as [|h hs IH]; intros d w.
  - unfold Early.chain_of, Early.void_middleware. simpl. by rewrite HW.
  - rewrite early_chain_cons, early_serve_node, HW.
    destruct h as [f|]; [|symmetry; apply serve_cons_nil].
    etrans; [|symmetry; apply serve_cons_some].
    by rewrite (interp_ext d _ (Current.middleware_ServeHTTP (S d) (Current.build hs))).
Qed.

End Wrapped.

(** ** Nodes are entered through continuation calls only *)

Section Entering.
Context {World : Type}.
Variable Written : World -> option bool.
Implicit Types (hs : list (Handler World)) (w : World) (d j : nat).
Implicit Types (l : list (Event World)).
Implicit Types (next : World -> list (Event World) * Outcome World).

Lemma serves_app d l1 l2 : serves d (l1 ++ l2) = serves d l1 + serves d l2.
Proof. unfold serves. by rewrite List.filter_app, length_app. Qed.

Lemma serves_serve_eq d l : serves d (@Serve World d :: l) = S (serves d l).
Proof. unfold serves. simpl. by rewrite Nat.eqb_refl. Qed.

Lemma serves_serve_ne d d' l :
  d ≠ d' -> serves d (@Serve World d' :: l) = serves d l.
Proof. intros Hne. unfold serves. simpl. by destruct (Nat.eqb_spec d d'). Qed.

Lemma serves_handle d d' (f : HandlerFunc World) l :
  serves d (Handle d' f :: l) = serves d l.
Proof. done. Qed.

Lemma serves_yield d d' l : serves d (@Yield World d' :: l) = serves d l.
Proof. done. Qed.

Lemma serves_other d l :
  Forall (fun e => depth e ≠ d) l -> serves d l = 0.
Proof.
  induction 1 as [|e l He _ IH]; [done|].
  destruct e as [d'|d' f|d']; simpl in He.
  - by rewrite serves_serve_ne.
  - by rewrite serves_handle.
  - by rewrite serves_yield.
Qed.

(** If every call of [next] enters position [d + 1] once and keeps the count
    there on, so does the invocation, with one entry per [Yield d]. *)
Lemma interp_serves d next (b : Behaviour World) :
  (∀ w, serves (S d) (fst (next w)) = 1
        ∧ (∀ j, d < j -> serves (S j) (fst (next w)) = yields j (fst (next w)))
        ∧ Forall (fun e => depth e ≠ d) (fst (next w))) ->
  serves d (fst (interp d next b)) = 0
  ∧ ∀ j, d ≤ j -> serves (S j) (fst (interp d next b)) = yields j (fst (interp d next b)).
Proof.
  intros Hnext. induction b as [w|w|w k IH]; simpl; [done|done|].
  destruct (Hnext w) as (H1 & Hj & Hd).
  destruct (IH (snd (next w))) as [IH0 IHj].
  split.
  - by rewrite serves_yield, serves_app, IH0, (serves_other d _ Hd).
  - intros j Hle. rewrite serves_yield, serves_app, IHj by done.
    destruct (decide (j = d)) as [->|Hne].
    + rewrite yields_yield_eq, yields_app, H1, (yields_other d _ Hd). lia.
    + rewrite yields_yield_ne, yields_app, Hj by lia. done.
Qed.

Lemma serve_build_entries hs : ∀ d w,
  serves d (fst (Current.middleware_ServeHTTP d (Current.build hs) w)) = 1
  ∧ ∀ j, d ≤ j ->
      serves (S j) (fst (Current.middleware_ServeHTTP d (Current.build hs) w))
      = yields j (fst (Current.middleware_ServeHTTP d (Current.build hs) w)).
Proof.
  unfold Handler in hs. induction hs as [|[f|] hs IH]; intros d w.
  - change (Current.build []) with (@Current.voidMiddleware World).
    rewrite serve_void. cbn [fst]. split; [by rewrite serves_serve_eq|].
    intros j Hj. by rewrite serves_serve_ne by lia.
  - rewrite serve_cons_some. cbn [fst].
    destruct (interp_serves d (Current.middleware_ServeHTTP (S d) (Current.build hs)) (f w))
      as [H0 Hj].
    { intros w'. destruct (IH (S d) w') as [I1 I2].
      split; [done|]. split; [intros j Hj; apply I2; lia|apply serve_build_deeper]. }
    split.
    + by rewrite serves_serve_eq, serves_handle, H0.
    + intros j Hle. rewrite serves_serve_ne, serves_handle by lia.
      by rewrite yields_serve, yields_handle, Hj.
  - rewrite serve_cons_nil. cbn [fst]. split; [by rewrite serves_serve_eq|].
    intros j Hj. by rewrite serves_serve_ne by lia.
Qed.

Lemma early_serve_entries hs : ∀ d w,
  serves d (fst (Early.middleware_ServeHTTP Written d (Early.chain_of hs) w)) = 1
  ∧ ∀ j, d ≤ j ->
      serves (S j) (fst (Early.middleware_ServeHTTP Written d (Early.chain_of hs) w))
      = yields j (fst (Early.middleware_ServeHTTP Written d (Early.chain_of hs) w)).
Proof.
  assert (Hone : ∀ d, serves d [@Serve World d] = 1
                      ∧ ∀ j, d ≤ j -> serves (S j) [@Serve World d] = yields j [@Serve World d]).
  { intros d. split; [by rewrite serves_serve_eq|].
    intros j Hj. by rewrite serves_serve_ne by lia. }
  induction hs as [|h hs IH]; intros d w.
  - unfold Early.chain_of, foldr, Early.void_middleware. rewrite early_serve_node.
    destruct (Written w) as [[|]|]; cbn [fst]; apply Hone.
  - rewrite early_chain_cons, early_serve_node.
    destruct (Written w) as [[|]|]; cbn [fst]; try apply Hone.
    destruct h as [f|]; cbn [fst]; [|apply Hone].
    destruct (interp_serves d (Early.middleware_ServeHTTP Written (S d) (Early.chain_of hs))
                (f w)) as [H0 Hj].
    { intros w'. destruct (IH (S d) w') as [I1 I2].
      split; [done|]. split; [intros j Hj; apply I2; lia|apply early_serve_deeper]. }
    split.
    + by rewrite serves_serve_eq, serves_handle, H0.
    + intros j Hle. rewrite serves_serve_ne, serves_handle by lia.
      by rewrite yields_serve, yields_handle, Hj.
Qed.

(** X4. In a dispatch through a built chain, whatever the handlers do, the
    head node is entered once and the node after position j is entered
    exactly as many times as the handler at position j calls its
    continuation; this holds in both versions. *)
Theorem nodes_entered_once_per_yield hs w :
  (serves 0 (fst (Current.middleware_ServeHTTP 0 (Current.build hs) w)) = 1
   ∧ ∀ j, serves (S j) (fst (Current.middleware_ServeHTTP 0 (Current.build hs) w))
          = yields j (fst (Current.middleware_ServeHTTP 0 (Current.build hs) w)))
  ∧ (serves 0 (fst (Early.middleware_ServeHTTP Written 0 (Early.chain_of hs) w)) = 1
     ∧ ∀ j, serves (S j) (fst (Early.middleware_ServeHTTP Written 0 (Early.chain_of hs) w))
            = yields j (fst (Early.middleware_ServeHTTP Written 0 (Early.chain_of hs) w))).
Proof.
  split.
  - destruct (serve_build_entries hs 0 w) as [H1 Hj].
    split; [done|]. intros j. apply Hj. lia.
  - destruct (early_serve_entries hs 0 w) as [H1 Hj].
    split; [done|]. intros j. apply Hj. lia.
Qed.

End Entering.

(** ** Pipelines made with [New], [Use] and [With] only *)

Section Reachable.
Context {World : Type}.
Variable growslice : nat -> nat -> nat.
Hypothesis growslice_ge : ∀ c n, n ≤ growslice c n.
Implicit Types (σ : @Current.Mem World) (obj : @Current.Negroni World).
Implicit Types (h : Handler World) (hs : list (Handler World)) (s t : slice).
Implicit Types (arrs : list (list (Handler World))).

Lemma slice_wf_in_cap arrs s :
  slice_wf arrs s -> base s < length arrs ∨ cap s = 0.
Proof.
  intros [Hl Hc]. unfold array_of in Hc.
  destruct (arrs !! base s) as [arr|] eqn:E.
  - left. by eapply lookup_lt_Some.
  - right. simpl in Hc. lia.
Qed.

(** [append] of at least one element leaves alone a slice on another array,
    and any slice when the one appended to has no capacity. *)
Lemma append_frame_sep arrs s (xs : list (Handler World)) t :
  len t = 0 ∨ base t < length arrs ->
  cap s = 0 ∨ base t ≠ base s ->
  xs ≠ [] ->
  contents (snd (append (None : Handler World) growslice s xs arrs)) t = contents arrs t.
Proof.
  intros Hin Hsep Hxs.
  destruct Hin as [E|Hin]; [by rewrite !contents_empty|].
  unfold append. case_decide as Hfit; simpl.
  - destruct Hsep as [Hc|Hne].
    + destruct xs; [done|]. simpl in Hfit. lia.
    + unfold contents, array_of. by rewrite list_lookup_alter_ne.
  - apply contents_alloc. by left.
Qed.

Lemma append_cases arrs s (xs : list (Handler World)) :
  (fst (append (None : Handler World) growslice s xs arrs)
     = Slice (base s) (off s) (len s + length xs) (cap s)
   ∧ len s + length xs ≤ cap s)
  ∨ base (fst (append (None : Handler World) growslice s xs arrs)) = length arrs.
Proof. unfold append. case_decide; simpl; auto. Qed.

Lemma variadic_spec hs arrs :
  slice_wf (snd (Current.variadic hs arrs)) (fst (Current.variadic hs arrs))
  ∧ contents (snd (Current.variadic hs arrs)) (fst (Current.variadic hs arrs)) = hs
  ∧ (∃ extra, snd (Current.variadic hs arrs) = arrs ++ extra)
  ∧ (cap (fst (Current.variadic hs arrs)) = 0
     ∨ base (fst (Current.variadic hs arrs)) = length arrs).
Proof.
  destruct hs as [|h hs]; simpl.
  - split; [split; simpl; lia|]. split; [done|].
    split; [exists []; by rewrite app_nil_r|by left].
  - unfold contents, array_of, slice_wf, array_of. simpl.
    rewrite lookup_app_r, Nat.sub_diag by done. simpl.
    split; [lia|]. split; [by rewrite take_ge by lia|].
    split; [by eexists|by right].
Qed.

Lemma inv_alloc σ (extra : list (list (Handler World))) :
  Current.pipelines_inv σ ->
  Current.pipelines_inv {| Current.arrays := Current.arrays σ ++ extra;
                   Current.objects := Current.objects σ |}.
Proof.
  intros (Hwf & Hcons & Hsep). split; [|split].
  - intros n obj Hn. simpl in *. apply slice_wf_alloc. by eapply Hwf.
  - intros n obj Hn. simpl in *.
    rewrite contents_alloc; [by eapply Hcons|]. eapply slice_wf_in, Hwf. done.
  - exact Hsep.
Qed.

(** A new pipeline, on a slice that shares no array with the others. *)
Lemma inv_New σ s :
  Current.pipelines_inv σ ->
  slice_wf (Current.arrays σ) s ->
  (∀ m objm, Current.objects σ !! m = Some objm ->
     cap s = 0 ∨ cap (Current.Negroni_handlers objm) = 0
     ∨ base (Current.Negroni_handlers objm) ≠ base s) ->
  Current.pipelines_inv (snd (Current.New s σ)).
Proof.
  intros (Hwf & Hcons & Hsep) Hs Hother.
  split; [by apply New_spec|]. split.
  - intros n obj Hn. simpl in *.
    apply lookup_app_Some in Hn as [Hn|[_ Hn]]; [by eapply Hcons|].
    by apply list_lookup_singleton_Some in Hn as [_ <-].
  - intros n m objn objm Hne Hn Hm. simpl in *.
    apply lookup_app_Some in Hn as [Hn|[Hln Hn]];
      apply lookup_app_Some in Hm as [Hm|[Hlm Hm]].
    + exact (Hsep n m objn objm Hne Hn Hm).
    + apply list_lookup_singleton_Some in Hm as [_ <-]. simpl.
      destruct (Hother n objn Hn) as [?|[?|?]]; auto.
    + apply list_lookup_singleton_Some in Hn as [_ <-]. simpl.
      destruct (Hother m objm Hm) as [?|[?|?]]; auto.
    + apply list_lookup_singleton_Some in Hn as [Hn1 _].
      apply list_lookup_singleton_Some in Hm as [Hm1 _]. lia.
Qed.

Lemma inv_New_args σ hs :
  Current.pipelines_inv σ -> Current.pipelines_inv (snd (Current.New_args hs σ)).
Proof.
  intros Hinv. unfold Current.New_args.
  destruct (variadic_spec hs (Current.arrays σ)) as (Hwf & _ & [extra Hex] & Hfresh).
  apply inv_New.
  - simpl. rewrite Hex. by apply inv_alloc.
  - done.
  - intros m objm Hm. simpl in Hm.
    destruct Hfresh as [?|Hb]; [by left|]. right. rewrite Hb.
    destruct Hinv as (Hwf0 & _ & _).
    destruct (slice_wf_in_cap _ _ (Hwf0 m objm Hm)) as [?|Hc]; [right; lia|by left].
Qed.

(** [Use] keeps the invariant and leaves the other pipelines as they are. *)
Lemma inv_Use σ n h σ' :
  Current.pipelines_inv σ ->
  Current.Use growslice n h σ = Ok σ' ->
  Current.pipelines_inv σ'
  ∧ ∀ m objm, m ≠ n -> Current.objects σ !! m = Some objm ->
      Current.objects σ' !! m = Some objm
      ∧ contents (Current.arrays σ') (Current.Negroni_handlers objm)
        = contents (Current.arrays σ) (Current.Negroni_handlers objm).
Proof.
  intros (Hwf & Hcons & Hsep) HU.
  destruct h as [f|]; [|done]. unfold Current.Use in HU.
  destruct (Current.objects σ !! n) as [obj|] eqn:Hn; [|done].
  injection HU as <-.
  set (s := Current.Negroni_handlers obj) in *.
  match goal with
  | |- context [append ?z growslice s ?x ?a] => set (r := append z growslice s x a) in *
  end.
  assert (Hlt : n < length (Current.objects σ)) by (by eapply lookup_lt_Some).
  assert (Hframe : ∀ m objm, m ≠ n -> Current.objects σ !! m = Some objm ->
            contents (snd r) (Current.Negroni_handlers objm)
            = contents (Current.arrays σ) (Current.Negroni_handlers objm)).
  { intros m objm Hne Hm. pose proof (Hwf m objm Hm) as Hwm.
    destruct (Hsep m n objm obj Hne Hm Hn) as [Hc|[Hc|Hb]].
    - rewrite !contents_empty; [done| |]; destruct Hwm; lia.
    - apply append_frame_sep; [|by left|done].
      destruct (slice_wf_in _ _ Hwm); auto.
    - apply append_frame_sep; [|by right|done].
      destruct (slice_wf_in _ _ Hwm); auto. }
  split; [split; [|split]|].
  - intros m objm Hm. cbn [Current.objects Current.arrays Current.Negroni_handlers Current.Negroni_middleware] in *.
    destruct (decide (m = n)) as [->|Hne].
    + rewrite list_lookup_insert_eq in Hm by done. injection Hm as <-. cbn [Current.Negroni_handlers].
      apply append_wf; [done|]. by eapply Hwf.
    + rewrite list_lookup_insert_ne in Hm by done.
      apply append_wf_frame. by eapply Hwf.
  - intros m objm Hm. cbn [Current.objects Current.arrays Current.Negroni_handlers Current.Negroni_middleware] in *.
    destruct (decide (m = n)) as [->|Hne].
    + rewrite list_lookup_insert_eq in Hm by done. by injection Hm as <-.
    + rewrite list_lookup_insert_ne in Hm by done.
      etrans; [by eapply Hcons|]. f_equal. symmetry. by apply (Hframe m objm).
  - assert (Hnew : ∀ m objm, m ≠ n -> Current.objects σ !! m = Some objm ->
              cap (fst r) = 0 ∨ cap (Current.Negroni_handlers objm) = 0
              ∨ base (Current.Negroni_handlers objm) ≠ base (fst r)).
    { intros m objm Hne Hm.
      pose proof (Hsep m n objm obj Hne Hm Hn) as Hmn.
      pose proof (slice_wf_in_cap _ _ (Hwf m objm Hm)) as Hin.
      destruct (append_cases (Current.arrays σ) s [Some f]) as [[E Hfit]|E];
        subst r; unfold Handler in *; rewrite E; simpl.
      - destruct Hmn as [?|[?|?]]; auto.
      - destruct Hin; [right; right; lia|right; by left]. }
    intros m1 m2 o1 o2 Hne H1 H2. cbn [Current.objects Current.arrays Current.Negroni_handlers Current.Negroni_middleware] in *.
    destruct (decide (m1 = n)) as [->|Hne1]; destruct (decide (m2 = n)) as [->|Hne2].
    + done.
    + rewrite list_lookup_insert_eq in H1 by done. injection H1 as <-.
      rewrite list_lookup_insert_ne in H2 by done. cbn [Current.Negroni_handlers].
      destruct (Hnew m2 o2 Hne2 H2) as [?|[?|?]]; auto.
    + rewrite list_lookup_insert_eq in H2 by done. injection H2 as <-.
      rewrite list_lookup_insert_ne in H1 by done. cbn [Current.Negroni_handlers].
      destruct (Hnew m1 o1 Hne1 H1) as [?|[?|?]]; auto.
    + rewrite list_lookup_insert_ne in H1, H2 by done.
      exact (Hsep m1 m2 o1 o2 Hne H1 H2).
  - intros m objm Hne Hm. cbn [Current.objects Current.arrays]. split; [|exact (Hframe m objm Hne Hm)].
    by rewrite list_lookup_insert_ne.
Qed.

(** What [With(h1, ..., hk)] does on a pipeline that exists. *)
Lemma With_args_spec σ p objp hs :
  Current.mem_wf σ ->
  Current.objects σ !! p = Some objp ->
  ∃ σ1 objd,
    Current.With_args growslice p hs σ = Ok (length (Current.objects σ), σ1)
    ∧ Current.objects σ1 = Current.objects σ ++ [objd]
    ∧ contents (Current.arrays σ1) (Current.Negroni_handlers objd)
      = contents (Current.arrays σ) (Current.Negroni_handlers objp) ++ hs
    ∧ Current.Negroni_middleware objd
      = Current.build (contents (Current.arrays σ) (Current.Negroni_handlers objp) ++ hs)
    ∧ Current.mem_wf σ1
    ∧ length (Current.arrays σ) ≤ base (Current.Negroni_handlers objd)
    ∧ ∀ t, slice_wf (Current.arrays σ) t ->
           contents (Current.arrays σ1) t = contents (Current.arrays σ) t.
Proof.
  intros Hwf Hp. unfold Current.With_args.
  destruct (variadic_spec hs (Current.arrays σ)) as (Hs & Hc & [extra Hex] & _).
  set (σm := {| Current.arrays := snd (Current.variadic hs (Current.arrays σ));
                Current.objects := Current.objects σ |}).
  assert (Hwfm : Current.mem_wf σm).
  { intros m objm Hm. simpl in *. rewrite Hex. apply slice_wf_alloc. by eapply Hwf. }
  destruct (With_spec growslice growslice_ge σm p objp
              (fst (Current.variadic hs (Current.arrays σ))) Hwfm Hp Hs)
    as (σ1 & objd & HW & Hobjs & Hcd & Hmd & Hwf1 & Hbase & _ & Hframe).
  assert (Hpm : contents (Current.arrays σm) (Current.Negroni_handlers objp)
                = contents (Current.arrays σ) (Current.Negroni_handlers objp)).
  { simpl. rewrite Hex. apply contents_alloc. eapply slice_wf_in, Hwf. done. }
  exists σ1, objd. split; [exact HW|]. split; [exact Hobjs|].
  simpl in Hcd. rewrite Hc in Hcd. simpl in Hpm. rewrite Hpm in Hcd.
  split; [exact Hcd|]. split; [by rewrite Hmd, Hcd|]. split; [exact Hwf1|].
  split.
  - etrans; [|exact Hbase]. simpl. rewrite Hex, length_app. lia.
  - intros t Ht. rewrite Hframe.
    + simpl. rewrite Hex. apply contents_alloc. by apply slice_wf_in.
    + simpl. rewrite Hex. by apply slice_wf_alloc.
Qed.

Lemma inv_With_args σ n hs d σ' :
  Current.pipelines_inv σ ->
  Current.With_args growslice n hs σ = Ok (d, σ') ->
  Current.pipelines_inv σ'.
Proof.
  intros (Hwf & Hcons & Hsep) HW.
  destruct (Current.objects σ !! n) as [objn|] eqn:Hn.
  2:{ unfold Current.With_args, Current.With in HW. simpl in HW. by rewrite Hn in HW. }
  destruct (With_args_spec σ n objn hs Hwf Hn)
    as (σ1 & objd & HW1 & Hobjs & Hcd & Hmd & Hwf1 & Hbase & Hframe).
  rewrite HW1 in HW. injection HW as <- <-.
  split; [exact Hwf1|]. split.
  - intros m objm Hm. rewrite Hobjs in Hm.
    apply lookup_app_Some in Hm as [Hm|[_ Hm]].
    + rewrite Hframe by (by eapply Hwf). by eapply Hcons.
    + apply list_lookup_singleton_Some in Hm as [_ <-]. by rewrite Hmd, Hcd.
  - assert (Hnew : ∀ m objm, Current.objects σ !! m = Some objm ->
              cap (Current.Negroni_handlers objm) = 0
              ∨ base (Current.Negroni_handlers objm) ≠ base (Current.Negroni_handlers objd)).
    { intros m objm Hm.
      destruct (slice_wf_in_cap _ _ (Hwf m objm Hm)); [right; lia|by left]. }
    intros m1 m2 o1 o2 Hne H1 H2. rewrite Hobjs in H1, H2.
    apply lookup_app_Some in H1 as [H1|[Hl1 H1]];
      apply lookup_app_Some in H2 as [H2|[Hl2 H2]].
    + exact (Hsep m1 m2 o1 o2 Hne H1 H2).
    + apply list_lookup_singleton_Some in H2 as [_ <-].
      destruct (Hnew m1 o1 H1); auto.
    + apply list_lookup_singleton_Some in H1 as [_ <-].
      destruct (Hnew m2 o2 H2) as [?|?]; auto.
    + apply list_lookup_singleton_Some in H1 as [E1 _].
      apply list_lookup_singleton_Some in H2 as [E2 _]. lia.
Qed.

Lemma reachable_inv σ : Current.reachable growslice σ -> Current.pipelines_inv σ.
Proof.
  induction 1 as [|hs σ _ IH|n h σ σ' _ IH HU|n hs σ d σ' _ IH HW].
  - split; [|split].
    + intros n obj Hn. by destruct n.
    + intros n obj Hn. by destruct n.
    + intros n m objn objm _ Hn. by destruct n.
  - by apply inv_New_args.
  - by eapply inv_Use.
  - by eapply inv_With_args.
Qed.

(** X5. In every memory reached from the empty one with [New(h1, ..., hk)],
    [Use] and [With(h1, ..., hk)], each pipeline's chain is the one built from
    its current handler list, each handler slice lies within its array, and no
    two pipelines have capacity on the same array. *)
Theorem reachable_pipelines_consistent σ :
  Current.reachable growslice σ ->
  Current.chains_consistent σ ∧ Current.mem_wf σ ∧ Current.arrays_separate σ.
Proof.
  intros Hr. destruct (reachable_inv σ Hr) as (Hwf & Hcons & Hsep). auto.
Qed.

(** X6. In such a memory [Use] on one pipeline leaves every other pipeline as
    it was: same object, and the same contents in its handler slice. *)
Theorem Use_leaves_other_pipelines σ n h σ' :
  Current.reachable growslice σ ->
  Current.Use growslice n h σ = Ok σ' ->
  ∀ m objm, m ≠ n -> Current.objects σ !! m = Some objm ->
    Current.objects σ' !! m = Some objm
    ∧ contents (Current.arrays σ') (Current.Negroni_handlers objm)
      = contents (Current.arrays σ) (Current.Negroni_handlers objm).
Proof.
  intros Hr HU. eapply inv_Use; [|exact HU]. by apply reachable_inv.
Qed.

(** X7. Deriving twice is deriving once with the two argument lists put
    together: [p.With(as...).With(bs...)] and [p.With(as..., bs...)] hold the
    same handler list, [p]'s followed by [as] and [bs], and equal chains. *)
Theorem With_composes σ p objp (as_ bs : list (Handler World)) :
  Current.mem_wf σ ->
  Current.objects σ !! p = Some objp ->
  ∃ d1 σ1 d2 σ2 obj2 d3 σ3 obj3,
    Current.With_args growslice p as_ σ = Ok (d1, σ1)
    ∧ Current.With_args growslice d1 bs σ1 = Ok (d2, σ2)
    ∧ Current.objects σ2 !! d2 = Some obj2
    ∧ Current.With_args growslice p (as_ ++ bs) σ = Ok (d3, σ3)
    ∧ Current.objects σ3 !! d3 = Some obj3
    ∧ contents (Current.arrays σ2) (Current.Negroni_handlers obj2)
      = contents (Current.arrays σ) (Current.Negroni_handlers objp) ++ as_ ++ bs
    ∧ contents (Current.arrays σ3) (Current.Negroni_handlers obj3)
      = contents (Current.arrays σ) (Current.Negroni_handlers objp) ++ as_ ++ bs
    ∧ Current.Negroni_middleware obj2 = Current.Negroni_middleware obj3.
Proof.
  intros Hwf Hp.
  destruct (With_args_spec σ p objp as_ Hwf Hp)
    as (σ1 & obj1 & HW1 & Hobjs1 & Hc1 & Hm1 & Hwf1 & _ & _).
  assert (Hd1 : Current.objects σ1 !! length (Current.objects σ) = Some obj1).
  { rewrite Hobjs1, lookup_app_r, Nat.sub_diag by done. done. }
  destruct (With_args_spec σ1 _ obj1 bs Hwf1 Hd1)
    as (σ2 & obj2 & HW2 & Hobjs2 & Hc2 & Hm2 & _ & _ & _).
  destruct (With_args_spec σ p objp (as_ ++ bs) Hwf Hp)
    as (σ3 & obj3 & HW3 & Hobjs3 & Hc3 & Hm3 & _ & _ & _).
  exists (length (Current.objects σ)), σ1, (length (Current.objects σ1)), σ2, obj2,
         (length (Current.objects σ)), σ3, obj3.
  split; [done|]. split; [done|]. split.
  { rewrite Hobjs2, lookup_app_r, Nat.sub_diag by done. done. }
  split; [done|]. split.
  { rewrite Hobjs3, lookup_app_r, Nat.sub_diag by done. done. }
  rewrite Hc1, <- app_assoc in Hc2, Hm2.
  split; [done|]. split; [done|]. by rewrite Hm2, Hm3.
Qed.

(** X8. [UseHandler] and [UseHandlerFunc] never report a nil handler: with a
    nil plain handler, or a nil function, on a pipeline that exists they
    return as for any other, the wrapper being appended; the panic comes at
    dispatch, when the node of that wrapper is served, after the node has
    been entered and the wrapper invoked. *)
Theorem UseHandler_accepts_nil σ n obj :
  Current.mem_wf σ ->
  Current.objects σ !! n = Some obj ->
  (∃ σ' obj',
     Current.UseHandler growslice n None σ = Ok σ'
     ∧ Current.objects σ' !! n = Some obj'
     ∧ contents (Current.arrays σ') (Current.Negroni_handlers obj')
       = contents (Current.arrays σ) (Current.Negroni_handlers obj) ++ [Current.Wrap None])
  ∧ (∃ σ', Current.UseHandlerFunc growslice n None σ = Ok σ')
  ∧ ∀ hs d w,
      snd (Current.middleware_ServeHTTP d (Current.build (Current.Wrap None :: hs)) w)
      = Panicked w
      ∧ length (fst (Current.middleware_ServeHTTP d
                       (Current.build (Current.Wrap None :: hs)) w)) = 2.
Proof.
  intros Hwf Hn. split; [|split].
  - destruct (Use_spec growslice growslice_ge σ n obj (fun w => Panics w) Hwf Hn)
      as (σ' & obj' & HU & Hobjs & Hc & _).
    exists σ', obj'. split; [exact HU|]. split; [|exact Hc].
    rewrite Hobjs. apply list_lookup_insert_eq. by eapply lookup_lt_Some.
  - destruct (Use_spec growslice growslice_ge σ n obj
                (fun w => match Panicked w with
                          | Returned w1 =>
                              CallNext w1 (fun o =>
                                match o with
                                | Returned w2 => Return w2
                                | Panicked w2 => Panics w2
                                end)
                          | Panicked w1 => Panics w1
                          end) Hwf Hn) as (σ' & obj' & HU & _).
    exists σ'. exact HU.
  - intros hs d w. rewrite build_cons. by simpl.
Qed.

End Reachable.

(** ** Registration in the earlier version, [Classic], idle pipelines, nil *)

Section Registration.
Context {World : Type}.
Variable growslice : nat -> nat -> nat.
Variable Written : World -> option bool.
Variable NewResponseWriter : World -> World.
Implicit Types (h : Handler World) (hs : list (Handler World)) (w : World).

(** X9. In the earlier version, appending handlers one at a time, nil or not,
    to a pipeline whose chain is the chain of its list never panics, and gives
    the pipeline whose list is the old one followed by the handlers, in the
    order given, with the chain of that list. *)
Theorem early_use_each_in_order hs (n : Early.Negroni World) :
  Early.Negroni_middleware n = Early.chain_of (Early.Negroni_handlers n) ->
  ∃ n', Early.use_each hs n = Ok n'
        ∧ Early.Negroni_handlers n' = Early.Negroni_handlers n ++ hs
        ∧ Early.Negroni_middleware n' = Early.chain_of (Early.Negroni_handlers n ++ hs)
        ∧ Early.nodes (Early.Negroni_middleware n')
          = Early.Negroni_handlers n ++ hs ++ [Some Early.voidHandler].
Proof.
  revert n. induction hs as [|h hs IH]; intros n Hn.
  - exists n. rewrite app_nil_r. split; [done|]. split; [done|]. split; [done|].
    rewrite Hn. apply early_nodes_chain.
  - cbn [Early.use_each]. rewrite early_Use_chain.
    destruct (IH {| Early.Negroni_middleware := Early.chain_of (Early.Negroni_handlers n ++ [h]);
                    Early.Negroni_handlers := Early.Negroni_handlers n ++ [h] |})
      as (n' & HU & Hh & Hm & Hnodes); [done|].
    simpl in *. exists n'. rewrite <- !app_assoc in *. done.
Qed.

(** X10. [Classic] puts recovery, logger and static, in that order, in front
    of the sentinel; in the annotated version through [New], in the earlier
    one through three calls of [Use], none of which panics. *)
Theorem Classic_chain (recovery logger static : Handler World)
    (σ : @Current.Mem World) :
  (∃ obj,
     Current.objects (snd (Current.Classic recovery logger static σ))
       !! fst (Current.Classic recovery logger static σ) = Some obj
     ∧ contents (Current.arrays (snd (Current.Classic recovery logger static σ)))
         (Current.Negroni_handlers obj) = [recovery; logger; static]
     ∧ Current.nodes (Current.Negroni_middleware obj)
       = [recovery; logger; static; Some Current.voidHandler])
  ∧ ∃ n, Early.Classic recovery logger static = Ok n
         ∧ Early.Negroni_handlers n = [recovery; logger; static]
         ∧ Early.nodes (Early.Negroni_middleware n)
           = [recovery; logger; static; Some Early.voidHandler].
Proof.
  split.
  - unfold Current.Classic, Current.New_args.
    destruct (variadic_spec [recovery; logger; static] (Current.arrays σ))
      as (_ & Hc & _).
    eexists. split.
    { cbn [fst snd Current.New Current.objects].
      rewrite lookup_app_r, Nat.sub_diag by done. reflexivity. }
    cbn [Current.Negroni_handlers Current.Negroni_middleware Current.New snd
         Current.arrays].
    split; [exact Hc|]. rewrite Hc. exact (nodes_build [recovery; logger; static]).
  - unfold Early.Classic. rewrite !early_Use_chain. eexists. split; [reflexivity|].
    split; [done|]. simpl. done.
Qed.

(** X11. Dispatch through a pipeline without handlers invokes the sentinel's
    no-op at most, and returns the wrapped world as it is; in the earlier
    version it panics when the sink dispatch was given is not a
    [ResponseWriter], and skips even the no-op when output was written. *)
Theorem idle_pipeline_dispatch (σ : @Current.Mem World) w :
  Current.Negroni_ServeHTTP NewResponseWriter
    (fst (Current.New_args [] σ)) (snd (Current.New_args [] σ)) w
  = ([Serve 0; Handle 0 Current.voidHandler], Returned (NewResponseWriter w))
  ∧ Early.Negroni_ServeHTTP Written NewResponseWriter Early.New w
    = match Written (NewResponseWriter w) with
      | None => ([Serve 0], Panicked (NewResponseWriter w))
      | Some true => ([Serve 0], Returned (NewResponseWriter w))
      | Some false =>
          ([Serve 0; Handle 0 Early.voidHandler], Returned (NewResponseWriter w))
      end.
Proof.
  split.
  - unfold Current.Negroni_ServeHTTP, Current.New_args. simpl.
    rewrite lookup_app_r, Nat.sub_diag by done. done.
  - unfold Early.Negroni_ServeHTTP. simpl.
    by destruct (Written (NewResponseWriter w)) as [[|]|].
Qed.

(** X12. A nil handler that got past registration panics at dispatch, not
    before. [New(..., nil, ...)] of the annotated version and [Use(nil)] of
    the earlier one both return; serving the node that holds the nil panics
    once the node is entered, without entering any later node, in the earlier
    version unless the sink shows output, in which case the node returns. *)
Theorem nil_handler_panics_at_dispatch hs (σ : @Current.Mem World)
    (n : Early.Negroni World) (d : nat) w :
  (∃ obj,
     Current.objects (snd (Current.New_args (None :: hs) σ))
       !! fst (Current.New_args (None :: hs) σ) = Some obj
     ∧ Current.Negroni_middleware obj = Current.build (None :: hs))
  ∧ Current.middleware_ServeHTTP d (Current.build (None :: hs)) w
    = ([Serve d], Panicked w)
  ∧ (∃ n', Early.Use n None = Ok n'
           ∧ Early.Negroni_handlers n' = Early.Negroni_handlers n ++ [None])
  ∧ Early.middleware_ServeHTTP Written d (Early.chain_of (None :: hs)) w
    = match Written w with
      | Some true => ([Serve d], Returned w)
      | _ => ([Serve d], Panicked w)
      end.
Proof.
  split; [|split; [|split]].
  - unfold Current.New_args.
    destruct (variadic_spec (None :: hs) (Current.arrays σ)) as (_ & Hc & _).
    eexists. split.
    { cbn [fst snd Current.New Current.objects].
      rewrite lookup_app_r, Nat.sub_diag by done. reflexivity. }
    cbn [Current.Negroni_middleware Current.New snd Current.arrays]. by rewrite Hc.
  - apply serve_cons_nil.
  - rewrite early_Use_chain. by eexists.
  - etrans; [apply (early_serve_node Written d None (Early.chain_of hs) w)|].
    by destruct (Written w) as [[|]|].
Qed.

End Registration.

(** ** The further theorems at work on the sample handlers *)

(** Two plain handlers that write, behind [Wrap]. *)
Lemma wrapped_chain_runs_in_sequence_witness :
  yields 1 (fst (Current.middleware_ServeHTTP 0
    (Current.build ((fun p => Current.Wrap (Some p))
                      <$> [Sample.plain_write 1; Sample.plain_write 2]))
    (Sample.Raw []))) = 1.
Proof.
  refine (proj2 (wrapped_chain_runs_in_sequence
            [Sample.plain_write 1; Sample.plain_write 2] 0 (Sample.Raw [])) _ 1 _).
  - eexists. reflexivity.
  - simpl. lia.
Defined.

Lemma versions_agree_when_never_written_witness :
  Early.middleware_ServeHTTP Sample.never_written 0 (Early.chain_of Sample.three)
    (Sample.Raw [])
  = Current.middleware_ServeHTTP 0 (Current.build Sample.three) (Sample.Raw []).
Proof.
  apply (versions_agree_when_never_written Sample.never_written Sample.three 0
           (Sample.Raw [])).
  intros w'. reflexivity.
Defined.

Lemma reachable_pipelines_consistent_witness :
  Current.chains_consistent Sample.mem4.
Proof.
  apply (reachable_pipelines_consistent Sample.double double_ge Sample.mem4).
  apply Current.reach_New, Current.reach_New, Current.reach_empty.
Defined.

Lemma Use_leaves_other_pipelines_witness :
  ∃ σ' obj1,
    Current.Use Sample.double 0 (Some (Sample.stop 9)) Sample.mem4 = Ok σ'
    ∧ Current.objects Sample.mem4 !! 1 = Some obj1
    ∧ Current.objects σ' !! 1 = Some obj1
    ∧ contents (Current.arrays σ') (Current.Negroni_handlers obj1) = Sample.three.
Proof.
  eexists _, _. split; [reflexivity|]. split; [reflexivity|].
  refine (Use_leaves_other_pipelines Sample.double double_ge Sample.mem4 0
            (Some (Sample.stop 9)) _ _ eq_refl 1 _ _ eq_refl).
  - apply Current.reach_New, Current.reach_New, Current.reach_empty.
  - lia.
Defined.

Lemma mem4_wf : Current.mem_wf Sample.mem4.
Proof.
  intros n obj H. destruct n as [|[|n]]; simpl in H.
  - injection H as <-. split; simpl; lia.
  - injection H as <-. split; simpl; lia.
  - by destruct n.
Qed.

Lemma With_composes_witness :
  ∃ d1 σ1 d2 σ2 obj2,
    Current.With_args Sample.double 0 [Some (Sample.stop 7)] Sample.mem4 = Ok (d1, σ1)
    ∧ Current.With_args Sample.double d1 [Some (Sample.stop 8)] σ1 = Ok (d2, σ2)
    ∧ Current.objects σ2 !! d2 = Some obj2
    ∧ contents (Current.arrays σ2) (Current.Negroni_handlers obj2)
      = Sample.two ++ [Some (Sample.stop 7)] ++ [Some (Sample.stop 8)].
Proof.
  destruct (With_composes Sample.double double_ge Sample.mem4 0
              {| Current.Negroni_middleware := Current.build Sample.two;
                 Current.Negroni_handlers := Slice 0 0 2 2 |}
              [Some (Sample.stop 7)] [Some (Sample.stop 8)] mem4_wf eq_refl)
    as (d1 & σ1 & d2 & σ2 & obj2 & _ & _ & _ & H1 & H2 & H3 & _ & _ & Hc & _).
  exists d1, σ1, d2, σ2, obj2. split; [exact H1|]. split; [exact H2|].
  split; [exact H3|exact Hc].
Defined.

Lemma UseHandler_accepts_nil_witness :
  ∃ σ', Current.UseHandlerFunc Sample.double 0 None Sample.mem4 = Ok σ'.
Proof.
  refine (proj1 (proj2 (UseHandler_accepts_nil Sample.double double_ge Sample.mem4 0
            {| Current.Negroni_middleware := Current.build Sample.two;
               Current.Negroni_handlers := Slice 0 0 2 2 |} mem4_wf eq_refl))).
Defined.

Lemma early_use_each_in_order_witness :
  ∃ n', Early.use_each Sample.three Early.New = Ok n'
        ∧ Early.Negroni_handlers n' = Sample.three.
Proof.
  destruct (early_use_each_in_order Sample.three (@Early.New Sample.Sink) eq_refl)
    as (n' & HU & Hh & _).
  exists n'. split; [exact HU|exact Hh].
Defined.
